(** * picostruct: a shallow embedding of [src/index.ts]

    The validator library is embedded over a small model of the JavaScript
    store: values are primitives or references, objects and arrays live in
    a heap and are mutated in place, and a call either returns, throws, or
    does not terminate.  Every definition of [Module Picostruct] follows
    the function of the same name in [src/index.ts].

    The store holds ordinary objects and arrays: extensible, with
    writable data properties, and with [Object.prototype] and
    [Array.prototype], unchanged, as their prototypes.  Frozen or sealed
    objects, accessors of the caller's own, proxies, symbols and function
    objects are not in it. *)

From Stdlib Require Import Floats DecimalString DecimalNat.
From stdpp Require Import base list strings.

Local Open Scope string_scope.
Local Open Scope list_scope.
Set Warnings "-register-all".

(** ** Values and the store *)

Abbreviation loc := nat (only parsing).

(** [type Primitive] of the source.  A number is an IEEE binary64 float
    and a bigint an integer.  Of the seven types only [symbol] is left
    out: as a value or a literal a symbol is one more primitive that is
    equal to itself alone ([JSON.stringify] of it is [undefined]), but as
    a property key it is not a string, and the keys of the model are. *)
Inductive Primitive :=
| PUndefined
| PNull
| PBoolean (b : bool)
| PNumber (n : float)
| PString (s : string)
| PBigInt (z : Z).

Inductive value :=
| Prim (p : Primitive)
| Ref (l : loc).

Abbreviation undefined := (Prim PUndefined).
Abbreviation null := (Prim PNull).
Abbreviation Str s := (Prim (PString s)).
Abbreviation Num n := (Prim (PNumber n)).
Abbreviation Bool b := (Prim (PBoolean b)).

(** An ordinary object keeps its own enumerable string-keyed properties in
    the order [for ... in] visits them; an array keeps its elements, a hole
    being [None].  The prototype of an object is not kept: it is taken to
    be [Object.prototype], as it is for an object literal and for what
    [JSON.parse] returns. *)
Inductive cell :=
| CObject (props : list (string * value))
| CArray (elems : list (option value)).

Abbreviation heap := (list cell) (only parsing).

(** ** Errors: [ErrorPath], [ErrorInfo], [ErrorDescription] *)

Inductive PathKey :=
| KStr (s : string)
| KNum (n : nat).

Definition ErrorPath := list PathKey.

(** [expected] is [None] where the source stores [JSON.stringify(undefined)],
    which is [undefined]. *)
Inductive ErrorInfo :=
| mkInfo (d : ErrorDescription) (path : ErrorPath)
with ErrorDescription :=
| Expected (expected : option string)
| Union (failures : list ErrorInfo)
| Key (error : ErrorInfo)
| Custom (message : string)
| Unexpected.

Definition info_desc (i : ErrorInfo) : ErrorDescription :=
  match i with mkInfo d _ => d end.

Definition info_path (i : ErrorInfo) : ErrorPath :=
  match i with mkInfo _ p => p end.

(** [e.info.path.push(path)] *)
Definition push_path (i : ErrorInfo) (k : PathKey) : ErrorInfo :=
  match i with mkInfo d p => mkInfo d (p ++ [k]) end.

(** What a [throw] carries: a [ValidationError], or anything else. *)
Inductive exn :=
| ValidationError (info : ErrorInfo)
| OtherError (name : string).

(** ** Computations

    A call starts in a heap and returns a value, throws, or runs forever;
    the first two leave a heap behind. *)
Inductive outcome (A : Type) :=
| Return (a : A) (h : heap)
| Throw (e : exn) (h : heap)
| Diverge.

Arguments Return {A} a h.
Arguments Throw {A} e h.
Arguments Diverge {A}.

Definition M (A : Type) := heap -> outcome A.

Definition ret {A} (a : A) : M A := fun h => Return a h.

Definition bind {A B} (m : M A) (k : A -> M B) : M B :=
  fun h =>
    match m h with
    | Return a h' => k a h'
    | Throw e h' => Throw e h'
    | Diverge => Diverge
    end.

Definition throw {A} (e : exn) : M A := fun h => Throw e h.

(** [try { m } catch (e) { handler(e) }] *)
Definition try_catch {A} (m : M A) (handler : exn -> M A) : M A :=
  fun h =>
    match m h with
    | Return a h' => Return a h'
    | Throw e h' => handler e h'
    | Diverge => Diverge
    end.

(** Reading from, and writing to, the current heap. *)
Definition read {A} (f : heap -> A) : M A := fun h => Return (f h) h.
Definition write (f : heap -> heap) : M unit := fun h => Return tt (f h).

Declare Scope js_scope.
Delimit Scope js_scope with js.
Notation "x <- m ;; k" := (bind m (fun x => k))
  (at level 100, m at next level, right associativity) : js_scope.
Notation "m ;;; k" := (bind m (fun _ => k))
  (at level 100, right associativity) : js_scope.
Local Open Scope js_scope.

(** A statement-level loop over a list, in order. *)
Definition for_each {A} (body : A -> M unit) : list A -> M unit :=
  fix go (l : list A) : M unit :=
    match l with
    | [] => ret tt
    | a :: l' => body a ;;; go l'
    end.

(** The same with the position of each element, counted from [i]. *)
Definition for_each_from {A} (body : nat -> A -> M unit) : nat -> list A -> M unit :=
  fix go (i : nat) (l : list A) : M unit :=
    match l with
    | [] => ret tt
    | a :: l' => body i a ;;; go (S i) l'
    end.

(** ** Built-ins of the host *)

(** [String(n)] for a natural number: its decimal numeral. *)
Definition string_of_nat (n : nat) : string :=
  NilEmpty.string_of_uint (Nat.to_uint n).

(** [String(z)] for an integer, as a bigint prints. *)
Definition string_of_Z (z : Z) : string :=
  NilZero.string_of_int (Z.to_int z).

(** The number a property key denotes, when it is the canonical numeral
    of a natural number.  On an array this is the index the key reads and
    writes: an array has fewer than 2^32 - 1 elements. *)
Definition array_index (k : string) : option nat :=
  match NilEmpty.uint_of_string k with
  | Some d =>
      let n := Nat.of_uint d in
      if String.eqb (string_of_nat n) k then Some n else None
  | None => None
  end.

(** The same below 2^32 - 1, as a binary number: the keys that the
    enumeration of an object puts first, in ascending order.  A numeral
    from 2^32 - 1 on is a key like any other string. *)
Definition integer_index (k : string) : option N :=
  match NilEmpty.uint_of_string k with
  | Some d =>
      let n := N.of_uint d in
      if String.eqb (NilEmpty.string_of_uint (N.to_uint n)) k
         && (n <? 4294967295)%N
      then Some n else None
  | None => None
  end.

Definition typeof (x : value) : string :=
  match x with
  | Prim PUndefined => "undefined"
  | Prim PNull => "object"
  | Prim (PBoolean _) => "boolean"
  | Prim (PNumber _) => "number"
  | Prim (PString _) => "string"
  | Prim (PBigInt _) => "bigint"
  | Ref _ => "object"
  end.

(** [!x]: whether [x] is falsy. *)
Definition falsy (x : value) : bool :=
  match x with
  | Prim PUndefined | Prim PNull => true
  | Prim (PBoolean b) => negb b
  | Prim (PNumber n) => is_zero n || is_nan n
  | Prim (PString s) => String.eqb s ""
  | Prim (PBigInt z) => (z =? 0)%Z
  | Ref _ => false
  end.

Definition Array_isArray (h : heap) (x : value) : bool :=
  match x with
  | Ref l => match h !! l with Some (CArray _) => true | _ => false end
  | Prim _ => false
  end.

(** [x.length] of an array, as a count. *)
Definition array_length (h : heap) (x : value) : nat :=
  match x with
  | Ref l => match h !! l with Some (CArray elems) => length elems | _ => 0 end
  | Prim _ => 0
  end.

(** [x === p] against a primitive: same type and same value; on numbers
    the IEEE comparison, under which [NaN] differs from itself; a bigint
    is never equal to a number. *)
Definition strict_equals (x : value) (p : Primitive) : bool :=
  match x, p with
  | Prim PUndefined, PUndefined => true
  | Prim PNull, PNull => true
  | Prim (PBoolean a), PBoolean b => Bool.eqb a b
  | Prim (PNumber a), PNumber b => PrimFloat.eqb a b
  | Prim (PString a), PString b => String.eqb a b
  | Prim (PBigInt a), PBigInt b => (a =? b)%Z
  | _, _ => false
  end.

Definition Number_isFinite (x : value) : bool :=
  match x with
  | Prim (PNumber n) => is_finite n
  | _ => false
  end.

Definition Number_isInteger (x : value) : bool :=
  match x with
  | Prim (PNumber n) =>
      match Prim2SF n with
      | S754_zero _ => true
      | S754_finite _ m e =>
          (0 <=? e)%Z || (Z.pos m mod 2 ^ (- e) =? 0)%Z
      | _ => false
      end
  | _ => false
  end.

Definition is_bigint (p : Primitive) : bool :=
  match p with
  | PBigInt _ => true
  | _ => false
  end.

(** *** Property access *)

Fixpoint props_get (k : string) (props : list (string * value)) : option value :=
  match props with
  | [] => None
  | (k', v) :: rest => if String.eqb k' k then Some v else props_get k rest
  end.

Definition props_has (k : string) (props : list (string * value)) : bool :=
  match props_get k props with Some _ => true | None => false end.

Fixpoint props_update (k : string) (v : value) (props : list (string * value))
  : list (string * value) :=
  match props with
  | [] => []
  | (k', v') :: rest =>
      if String.eqb k' k then (k', v) :: rest
      else (k', v') :: props_update k v rest
  end.

(** The names of the properties of [Object.prototype].  On an object
    that has no own property of such a name the name still denotes
    something: a built-in function, or for ["__proto__"] an accessor. *)
Definition Object_prototype_keys : list string :=
  ["constructor"; "__defineGetter__"; "__defineSetter__"; "hasOwnProperty";
   "__lookupGetter__"; "__lookupSetter__"; "isPrototypeOf";
   "propertyIsEnumerable"; "toString"; "valueOf"; "__proto__";
   "toLocaleString"].

Definition inherited (k : string) : bool :=
  existsb (String.eqb k) Object_prototype_keys.

Arguments inherited : simpl never.

(** A new integer-like key goes among the integer-like keys, in ascending
    order, before every other key. *)
Fixpoint props_add_index (n : N) (k : string) (v : value)
    (props : list (string * value)) : list (string * value) :=
  match props with
  | [] => [(k, v)]
  | (k', v') :: rest =>
      match integer_index k' with
      | Some n' =>
          if (n <? n')%N then (k, v) :: props
          else (k', v') :: props_add_index n k v rest
      | None => (k, v) :: props
      end
  end.

(** [o[k] = v] on an ordinary object: an existing property keeps its
    place, a new one is added in enumeration order.  The key ["__proto__"],
    when the object has no own property of that name, is the accessor of
    [Object.prototype]: the assignment runs its setter, which adds no
    property (it makes [v] the prototype of [o] when [v] is an object or
    [null]; the model does not keep prototypes, so this is as far as it
    follows the setter). *)
Definition props_set (k : string) (v : value) (props : list (string * value))
  : list (string * value) :=
  if props_has k props then props_update k v props
  else if String.eqb k "__proto__" then props
  else match integer_index k with
       | Some n => props_add_index n k v props
       | None => props ++ [(k, v)]
       end.

Definition elems_get (n : nat) (elems : list (option value)) : value :=
  match elems !! n with
  | Some (Some v) => v
  | _ => undefined
  end.

(** [a[n] = v]: in range the slot is overwritten, beyond the end the array
    grows and the gap is left as holes. *)
Definition elems_set (n : nat) (v : value) (elems : list (option value))
  : list (option value) :=
  if (n <? length elems)%nat then <[n := Some v]> elems
  else elems ++ replicate (n - length elems) None ++ [Some v].

(** [x[k]] for a reference [x], as far as the object itself decides it:
    the own property of that name, and [undefined] when there is none.
    That is what the code reads unless the name is one that the prototype
    defines ([inherited k]) and the object does not own: then the code
    reads the property of the prototype, a function object, which is no
    value of the model.  The statements that depend on what a missing key
    reads carry the hypothesis that the key is not [inherited].  Of an
    array only index keys are read: the library reads no other. *)
Definition get (h : heap) (x : value) (k : string) : value :=
  match x with
  | Ref l =>
      match h !! l with
      | Some (CObject props) => default undefined (props_get k props)
      | Some (CArray elems) =>
          match array_index k with
          | Some n => elems_get n elems
          | None => undefined
          end
      | None => undefined
      end
  | Prim _ => undefined
  end.

(** [x[k] = v] for a reference [x].  Of an array only index keys are
    written: the library writes no other. *)
Definition set (h : heap) (x : value) (k : string) (v : value) : heap :=
  match x with
  | Ref l =>
      match h !! l with
      | Some (CObject props) => <[l := CObject (props_set k v props)]> h
      | Some (CArray elems) =>
          match array_index k with
          | Some n => <[l := CArray (elems_set n v elems)]> h
          | None => h
          end
      | None => h
      end
  | Prim _ => h
  end.

(** The keys [for (let i in x)] starts from, and whether a key is still
    there when its turn comes. *)
Definition own_keys (h : heap) (x : value) : list string :=
  match x with
  | Ref l =>
      match h !! l with
      | Some (CObject props) => props.*1
      | _ => []
      end
  | Prim _ => []
  end.

Definition has_own (h : heap) (x : value) (k : string) : bool :=
  match x with
  | Ref l =>
      match h !! l with
      | Some (CObject props) => props_has k props
      | _ => false
      end
  | Prim _ => false
  end.

(** [{}]: a new empty object at the first free location. *)
Definition alloc_object : M value :=
  fun h => Return (Ref (length h)) (h ++ [CObject []]).

(** [schemas.reduce(callback, init)] *)
Definition Array_reduce {A B} (callback : A -> B -> M A) : list B -> A -> M A :=
  fix go (l : list B) (acc : A) : M A :=
    match l with
    | [] => ret acc
    | b :: l' => acc' <- callback acc b ;; go l' acc'
    end.

(** *** [JSON.stringify] and property keys *)

Definition dquote : string := String (Ascii.ascii_of_nat 34) "".

Definition hex_digit (n : nat) : string :=
  String.substring n 1 "0123456789abcdef".

(** The escape of one character inside a JSON string literal. *)
Definition json_escape (c : Ascii.ascii) : string :=
  let n := Ascii.nat_of_ascii c in
  if (n =? 8)%nat then "\b"
  else if (n =? 9)%nat then "\t"
  else if (n =? 10)%nat then "\n"
  else if (n =? 12)%nat then "\f"
  else if (n =? 13)%nat then "\r"
  else if (n =? 34)%nat then "\" +:+ dquote
  else if (n =? 92)%nat then "\\"
  else if (n <? 32)%nat then "\u00" +:+ hex_digit (n / 16) +:+ hex_digit (n mod 16)
  else String c "".

Fixpoint json_escape_all (s : string) : string :=
  match s with
  | EmptyString => ""
  | String c s' => json_escape c +:+ json_escape_all s'
  end.

Definition QuoteJSONString (s : string) : string :=
  dquote +:+ json_escape_all s +:+ dquote.

(** What the model takes from the engine without defining it: the decimal
    form of a number, and the string an object turns into when it is used
    as a property key. *)
Class Engine := {
  Number_toString : float -> string;
  Object_toString : heap -> loc -> string
}.

Section builtins.
Context `{Engine}.

(** What [JSON.stringify(p)] returns for a primitive; [None] is
    [undefined].  On a bigint it returns nothing: it throws (see
    [JSON_stringify_call]). *)
Definition JSON_stringify (p : Primitive) : option string :=
  match p with
  | PUndefined => None
  | PNull => Some "null"
  | PBoolean b => Some (if b then "true" else "false")
  | PNumber n => Some (if is_finite n then Number_toString n else "null")
  | PString s => Some (QuoteJSONString s)
  | PBigInt _ => None
  end.

(** The call [JSON.stringify(p)]: a [TypeError] on a bigint, and
    otherwise what [JSON_stringify] says. *)
Definition JSON_stringify_call (p : Primitive) : M (option string) :=
  match p with
  | PBigInt _ => throw (OtherError "TypeError")
  | _ => ret (JSON_stringify p)
  end.

(** The key [y[k] = ...] writes to. *)
Definition ToPropertyKey (h : heap) (k : value) : string :=
  match k with
  | Prim PUndefined => "undefined"
  | Prim PNull => "null"
  | Prim (PBoolean b) => if b then "true" else "false"
  | Prim (PNumber n) => Number_toString n
  | Prim (PString s) => s
  | Prim (PBigInt z) => string_of_Z z
  | Ref l => Object_toString h l
  end.

End builtins.

(** A regular expression, as far as [string] uses one: its flags [g] and
    [y], the text [`${regex}`], and what [regex.test] answers when the
    match starts at the beginning of the string.  That is what it answers
    at every call when neither flag is set.  With [g] or [y] a call
    starts at [lastIndex], which a match moves: [RegExp_test] is then the
    answer of a call that finds [lastIndex] at 0, and a statement about
    more than one call asks for an expression that is [stateless]. *)
Record RegExp := {
  RegExp_test : string -> bool;
  RegExp_toString : string;
  RegExp_global : bool;
  RegExp_sticky : bool
}.

Definition stateless (regex : option RegExp) : bool :=
  match regex with
  | Some r => negb (RegExp_global r || RegExp_sticky r)
  | None => true
  end.

Abbreviation PropertyKey := string (only parsing).
Abbreviation jsvalue := value (only parsing).

(** * The library *)

Module Picostruct.

(** [type Validator<T> = (object: any) => T] *)
Definition Validator := value -> M value.

(** [type Schema<A>]: a validator, a primitive literal, or an object or
    array of schemas.  The fields of an object schema are listed in the
    order [for ... in] visits them; an array schema is dense. *)
Inductive Schema :=
| SFun (f : Validator)
| SLit (p : Primitive)
| SObj (fields : list (PropertyKey * Schema))
| SArr (items : list Schema).

(** What [rethrow(e, path)] throws: [e], after [path] has been pushed onto
    its path if it is a [ValidationError]. *)
Definition pushed (e : exn) (path : PathKey) : exn :=
  match e with
  | ValidationError info => ValidationError (push_path info path)
  | _ => e
  end.

(** [rethrow(e, path)] *)
Definition rethrow {A} (e : exn) (path : PathKey) : M A :=
  throw (pushed e path).

(** [fail(message)] *)
Definition fail {A} (message : string + ErrorDescription) : M A :=
  throw (ValidationError
           (match message with
            | inl message => mkInfo (Custom message) []
            | inr description => mkInfo description []
            end)).

(** The test that guards the loop of [validate]:
    [typeof x !== "object" || !x ||
     !(Array.isArray(schema) ? Array.isArray(x) && schema.length === x.length
                             : !Array.isArray(x))] *)
Definition shape_mismatch (schema_isArray : bool) (schema_length : nat)
    (x : value) (h : heap) : bool :=
  negb (String.eqb (typeof x) "object")
  || falsy x
  || negb (if schema_isArray
           then Array_isArray h x && (schema_length =? array_length h x)%nat
           else negb (Array_isArray h x)).

(** The body shared by the loops of [validate] and [array]:
    [try { x[i] = validate_i(x[i]) } catch (e) { rethrow(e, i) }],
    where [k] is the property key that [i] denotes and [path] is [i] as
    [rethrow] is given it: a string in [validate], whose [i] comes from
    [for ... in], and a number in [array]. *)
Definition validate_in_place (validate_i : value -> M value) (x : value)
    (k : PropertyKey) (path : PathKey) : M unit :=
  try_catch
    (xi <- read (fun h => get h x k) ;;
     v <- validate_i xi ;;
     write (fun h => set h x k v))
    (fun e => rethrow e path).

Section index.
Context `{Engine}.

(** [validate(x, schema)] *)
Fixpoint validate (x : value) (schema : Schema) {struct schema} : M value :=
  match schema with
  | SFun f => f x
  | SObj fields =>
      mismatch <- read (shape_mismatch false 0 x) ;;
      if mismatch : bool then fail (inr (Expected (Some "object")))
      else
        for_each
          (fun '(i, s) =>
             validate_in_place (fun xi => validate xi s) x i (KStr i))
          fields ;;;
        ret x
  | SArr items =>
      mismatch <- read (shape_mismatch true (length items) x) ;;
      if mismatch : bool then
        fail (inr (Expected
                     (Some ("array[" +:+ string_of_nat (length items) +:+ "]"))))
      else
        for_each_from
          (fun i s =>
             validate_in_place (fun xi => validate xi s) x
                               (string_of_nat i) (KStr (string_of_nat i)))
          0 items ;;;
        ret x
  | SLit p =>
      if strict_equals x p then ret x
      else
        expected <- JSON_stringify_call p ;;
        fail (inr (Expected expected))
  end.

(** [map(schema, map)] *)
Definition map (schema : Schema) (map : value -> M value) : Validator :=
  fun x => v <- validate x schema ;; map v.

(** [filter(schema, filter, message)]; an absent or empty [message] is
    replaced by ["filter failed"]. *)
Definition filter (schema : Schema) (filter : value -> M bool)
    (message : option (string + ErrorDescription)) : Validator :=
  map schema
    (fun x =>
       keep <- filter x ;;
       if keep : bool then ret x
       else fail (match message with
                  | None | Some (inl "") => inl "filter failed"
                  | Some m => m
                  end)).

(** [string(regex)] *)
Definition string (regex : option RegExp) : Validator :=
  fun x =>
    if match x with
       | Str s => match regex with
                  | None => true
                  | Some r => RegExp_test r s
                  end
       | _ => false
       end
    then ret x
    else fail (inr (Expected
                      (Some ("string" +:+
                             match regex with
                             | Some r => " matching " +:+ RegExp_toString r
                             | None => ""
                             end)))).

(** [number()] *)
Definition number : Validator :=
  fun x =>
    if Number_isFinite x then ret x
    else fail (inr (Expected (Some "finite number"))).

(** [integer()] *)
Definition integer : Validator :=
  fun x =>
    if Number_isInteger x then ret x
    else fail (inr (Expected (Some "integer"))).

(** [boolean()] *)
Definition boolean : Validator :=
  fun x =>
    if String.eqb (typeof x) "boolean" then ret x
    else fail (inr (Expected (Some "boolean"))).

(** [maybe(schema, default_)]; a missing [default_] is [undefined]. *)
Definition maybe (schema : Schema) (default_ : option value) : Validator :=
  fun x =>
    if String.eqb (typeof x) "undefined" then ret (default undefined default_)
    else validate x schema.

(** [struct(schema)] *)
Definition struct (schema : Schema) : Validator :=
  fun x => validate x schema.

(** The body of the loop of [record] for the key [i], filling [y]. *)
Definition record_at (x y : value) (i : PropertyKey) (key value : Schema)
  : M unit :=
  v <- try_catch
         (xi <- read (fun h => get h x i) ;; validate xi value)
         (fun e => rethrow e (KStr i)) ;;
  try_catch
    (k <- validate (Str i) key ;;
     write (fun h => set h y (ToPropertyKey h k) v))
    (fun e =>
       throw (match e with
              | ValidationError info =>
                  ValidationError (mkInfo (Key info) [KStr i])
              | _ => e
              end)).

(** [record(key, value)].  [for (let i in x)] takes the keys of [x] once
    and skips a key that is gone when its turn comes. *)
Definition record (key value : Schema) : Validator :=
  fun x =>
    mismatch <- read (fun h => negb (String.eqb (typeof x) "object")
                               || falsy x || Array_isArray h x) ;;
    if mismatch : bool then fail (inr (Expected (Some "object")))
    else
      y <- alloc_object ;;
      keys <- read (fun h => own_keys h x) ;;
      for_each
        (fun i =>
           present <- read (fun h => has_own h x i) ;;
           if present : bool then record_at x y i key value else ret tt)
        keys ;;;
      ret y.

(** The loop of [array]: [for (let i = 0; i < x.length; i++)], with
    [x.length] read again at each turn.  [fuel] bounds the number of
    turns; a loop that has not ended by then counts as not ending. *)
Fixpoint array_loop (fuel : nat) (schema : Schema) (x : value) (i : nat)
  : M unit :=
  match fuel with
  | O => fun _ => Diverge
  | S fuel' =>
      len <- read (fun h => array_length h x) ;;
      if (i <? len)%nat then
        validate_in_place (fun xi => validate xi schema) x
                          (string_of_nat i) (KNum i) ;;;
        array_loop fuel' schema x (S i)
      else ret tt
  end.

(** [array(schema)] *)
Definition array (fuel : nat) (schema : Schema) : Validator :=
  fun x =>
    is_array <- read (fun h => Array_isArray h x) ;;
    if negb is_array then fail (inr (Expected (Some "array")))
    else array_loop fuel schema x 0 ;;; ret x.

(** [any()] *)
Definition any : Validator := fun x => ret x.

(** [never()] *)
Definition never : Validator :=
  fun _ => fail (inr (Expected (Some "never"))).

(** [allOf(...schemas)] *)
Definition allOf (schemas : list Schema) : Validator :=
  fun x => Array_reduce validate schemas x.

(** One turn of the loops of [anyOf] and [oneOf]: the result of the
    schema, or the [info] of the [ValidationError] it threw; any other
    exception goes on. *)
Definition attempt (x : value) (schema : Schema) : M (value + ErrorInfo) :=
  try_catch
    (v <- validate x schema ;; ret (inl v))
    (fun e =>
       match e with
       | ValidationError info => ret (inr info)
       | _ => throw e
       end).

(** The loop of [anyOf], with the [failures] so far. *)
Fixpoint anyOf_loop (x : value) (schemas : list Schema)
    (failures : list ErrorInfo) : M value :=
  match schemas with
  | [] => fail (inr (Union failures))
  | schema :: rest =>
      a <- attempt x schema ;;
      match a with
      | inl v => ret v
      | inr info => anyOf_loop x rest (failures ++ [info])
      end
  end.

(** [anyOf(...schemas)] *)
Definition anyOf (schemas : list Schema) : Validator :=
  fun x => anyOf_loop x schemas [].

(** The loop of [oneOf], with [count], [result] and [failures] so far. *)
Fixpoint oneOf_loop (x : value) (schemas : list Schema) (count : nat)
    (result : value) (failures : list ErrorInfo) : M value :=
  match schemas with
  | [] =>
      if (count =? 0)%nat then fail (inr (Union failures)) else ret result
  | schema :: rest =>
      a <- attempt x schema ;;
      match a with
      | inl v =>
          if (1 <? count + 1)%nat then fail (inr Unexpected)
          else oneOf_loop x rest (count + 1) v failures
      | inr info => oneOf_loop x rest count result (failures ++ [info])
      end
  end.

(** [oneOf(...schemas)] *)
Definition oneOf (schemas : list Schema) : Validator :=
  fun x => oneOf_loop x schemas 0 x [].

End index.
End Picostruct.

Import Picostruct.

(** * Vocabulary of the statements *)

(** ** Inputs for closed examples *)

(** An engine to run closed examples on.  It prints an integral number
    below 2^53 as its decimal numeral and an object used as a key as a
    plain object prints; no example depends on the text of any other
    number or object. *)
Definition integral_toString (n : float) : String.string :=
  match Prim2SF n with
  | S754_zero _ => "0"
  | S754_finite sign m e =>
      (if sign then "-" else "") +:+
      NilZero.string_of_uint
        (N.to_uint (Z.to_N (if (0 <=? e)%Z then Z.pos m * 2 ^ e
                            else Z.pos m / 2 ^ (- e))))
  | S754_infinity sign => if sign then "-Infinity" else "Infinity"
  | S754_nan => "NaN"
  end.

Definition example_engine : Engine :=
  {| Number_toString := integral_toString;
     Object_toString := fun _ _ => "[object Object]" |}.

(** A validator that never answers: a probe for "is not attempted". *)
Definition stuck : Validator := fun _ _ => Diverge.

(** A validator that throws something that is not a [ValidationError]. *)
Definition crash (name : PropertyKey) : Validator :=
  fun _ => throw (OtherError name).

(** [x => !x], a transformation to put in [map]. *)
Definition negation : value -> M value := fun x => ret (Bool (falsy x)).

(** [x => 2 * x], the transformation of the example in the documentation of
    [map]. *)
Definition double : value -> M value :=
  fun x => ret (match x with Num n => Num (2 * n) | _ => x end).

(** [x => x.length > 4 && x.length < 8], the predicate of the test of
    [filter]. *)
Definition medium_length : value -> M bool :=
  fun x =>
    ret (match x with
         | Str s => (4 <? String.length s)%nat && (String.length s <? 8)%nat
         | _ => false
         end).

(** [x => x.a > 0], a predicate that reads a property of its argument. *)
Definition positive_a : value -> M bool :=
  fun x => read (fun h => match get h x "a" with
                          | Num n => PrimFloat.ltb 0 n
                          | _ => false
                          end).

(** [x => !("b" in x)], a predicate that tells a missing property from one
    that holds [undefined]. *)
Definition lacks_b : value -> M bool :=
  fun x => read (fun h => negb (has_own h x "b")).

(** [/^a/]: no flags. *)
Definition starts_with_a : RegExp :=
  {| RegExp_test := String.prefix "a";
     RegExp_toString := "/^a/";
     RegExp_global := false;
     RegExp_sticky := false |}.

(** The inputs of the tests that are objects or arrays, one per cell. *)
Definition test_heap : heap :=
  [ (* 0 *) CArray [Some (Num 0); Some (Str "")];
    (* 1 *) CObject [];
    (* 2 *) CArray [Some (Ref 1); Some (Ref 1)];
    (* 3 *) CArray [Some (Num 0); Some (Num 0)];
    (* 4 *) CObject [("0", Num 0); ("1", Str "")];
    (* 5 *) CArray (replicate 10 None);
    (* 6 *) CObject [("x", Str "y"); ("y", Str "z")];
    (* 7 *) CObject [("x", Num 0); ("y", Str "x")];
    (* 8 *) CObject [("0", Num (-1)); ("x", Num 2)];
    (* 9 *) CObject [("a", undefined)];
    (* 10 *) CArray [] ].

(** ** Runs of the loops *)

(** [keeps l m]: whatever [m] does, the cell at [l] is afterwards what it
    was before. *)
Definition keeps {A} (l : loc) (m : M A) : Prop :=
  forall h,
    match m h with
    | Return _ h' | Throw _ h' => h' !! l = h !! l
    | Diverge => True
    end.

Section vocabulary.
Context `{Engine}.

(** [all_fail x schemas h failures h']: validating [x] against each of
    [schemas] in turn, from the heap [h], throws a [ValidationError] every
    time; [failures] are their [info]s in order and [h'] is the heap the
    last one leaves. *)
Inductive all_fail (x : value) : list Schema -> heap -> list ErrorInfo -> heap -> Prop :=
| all_fail_nil h : all_fail x [] h [] h
| all_fail_cons schema rest h info h1 failures h2 :
    validate x schema h = Throw (ValidationError info) h1 ->
    all_fail x rest h1 failures h2 ->
    all_fail x (schema :: rest) h (info :: failures) h2.

(** The two loops of [validate], under a name each: over the fields of an
    object schema, and over the items of an array schema from index [i]. *)
Definition validate_fields (x : value) (fields : list (PropertyKey * Schema))
  : M unit :=
  for_each
    (fun '(i, s) => validate_in_place (fun xi => validate xi s) x i (KStr i))
    fields.

Definition validate_items (x : value) (i : nat) (items : list Schema)
  : M unit :=
  for_each_from
    (fun i s =>
       validate_in_place (fun xi => validate xi s) x
                         (string_of_nat i) (KStr (string_of_nat i)))
    i items.

(** The loop of [record] over the keys [for ... in] took from [x]. *)
Definition record_keys (key value : Schema) (x y : jsvalue)
    (keys : list PropertyKey) : M unit :=
  for_each
    (fun i =>
       present <- read (fun h => has_own h x i) ;;
       if present : bool then record_at x y i key value else ret tt)
    keys.


(** What the tests of the repository ask of a validator: on a positive
    input, to return that very input; on a negative one, to throw a
    [ValidationError]. *)
Definition passes (v : Validator) (x : value) (h : heap) : Prop :=
  exists h', v x h = Return x h'.

Definition rejects (v : Validator) (x : value) (h : heap) : Prop :=
  exists info h', v x h = Throw (ValidationError info) h'.

End vocabulary.

(** ** Schemas that do not transform *)

(** Two cells are alike when every read of them gives the same value: a
    property that is missing reads as one that holds [undefined], and a
    hole as an element that is [undefined].  Under a name that the
    prototype defines a missing property does not read [undefined]: there
    the two cells have the same property, or both none. *)
Definition cell_alike (c1 c2 : cell) : Prop :=
  match c1, c2 with
  | CObject p1, CObject p2 =>
      forall k, if inherited k then props_get k p1 = props_get k p2
                else default undefined (props_get k p1)
                     = default undefined (props_get k p2)
  | CArray e1, CArray e2 =>
      length e1 = length e2 /\ forall n, elems_get n e1 = elems_get n e2
  | _, _ => False
  end.

Definition alike (h1 h2 : heap) : Prop := Forall2 cell_alike h1 h2.

(** The value returned or the exception thrown, without the heap. *)
Definition result_of {A} (o : outcome A) : option (A + exn) :=
  match o with
  | Return a _ => Some (inl a)
  | Throw e _ => Some (inr e)
  | Diverge => None
  end.

(** [steady P ok m]: from a heap in [P], [m] leaves a heap alike the one
    it started from, returns only values in [ok], and gives the same
    result from any heap alike it. *)
Definition steady {A} (P : heap -> Prop) (ok : A -> Prop) (m : M A) : Prop :=
  forall h,
    P h ->
    match m h with
    | Return a h' => ok a /\ alike h h'
    | Throw _ h' => alike h h'
    | Diverge => True
    end
    /\ forall h2, alike h h2 -> result_of (m h) = result_of (m h2).

(** [x[k] = x[k]] changes no read of [x]: on an array [k] is inside it,
    so that the array does not get longer, and on an object [k] is no
    name that the prototype defines. *)
Definition in_range (x : value) (k : PropertyKey) (h : heap) : Prop :=
  match x with
  | Ref l =>
      match h !! l with
      | Some (CArray elems) =>
          forall n, array_index k = Some n -> n < length elems
      | Some (CObject _) => inherited k = false
      | None => True
      end
  | Prim _ => True
  end.

(** [inspects m]: [m] answers without throwing and without changing the
    heap, and from a heap that reads alike it gives the same answer.  A
    predicate inspects when it decides from its argument and from what the
    properties and elements of objects read; [k in x], [Object.keys(x)]
    and [x.hasOwnProperty(k)], which tell a missing property from one that
    holds [undefined], do not. *)
Definition inspects {A} (m : M A) : Prop :=
  forall h,
    exists a, m h = Return a h /\ forall h2, alike h h2 -> m h2 = Return a h2.

Section plain_schemas.
Context `{Engine}.
Variable literal_ok : Primitive -> bool.

(** A schema is plain when it is built from
    - literals, those that [literal_ok] admits;
    - object shapes whose keys are no names that [Object.prototype]
      defines, and array shapes;
    - [string()], and [string(regex)] with a regular expression that has
      neither the [g] nor the [y] flag;
    - [number()], [integer()], [boolean()], [any()], [never()];
    - [struct], [array], and [maybe] without a default;
    - [filter] with a predicate that [inspects];
    - [anyOf], [oneOf] and [allOf];
    over plain schemas: no [map], no [record], no default, no validator of
    the caller's own. *)
Inductive plain_with : Schema -> Prop :=
| plain_literal p : literal_ok p = true -> plain_with (SLit p)
| plain_object fields : plain_fields fields -> plain_with (SObj fields)
| plain_array_shape items : plain_all items -> plain_with (SArr items)
| plain_string regex : stateless regex = true -> plain_with (SFun (string regex))
| plain_number : plain_with (SFun number)
| plain_integer : plain_with (SFun integer)
| plain_boolean : plain_with (SFun boolean)
| plain_any : plain_with (SFun any)
| plain_never : plain_with (SFun never)
| plain_struct schema : plain_with schema -> plain_with (SFun (struct schema))
| plain_array fuel schema : plain_with schema -> plain_with (SFun (array fuel schema))
| plain_maybe schema : plain_with schema -> plain_with (SFun (maybe schema None))
| plain_filter schema (keep : value -> M bool) message :
    plain_with schema ->
    (forall x, inspects (keep x)) ->
    plain_with (SFun (filter schema keep message))
| plain_anyOf schemas : plain_all schemas -> plain_with (SFun (anyOf schemas))
| plain_oneOf schemas : plain_all schemas -> plain_with (SFun (oneOf schemas))
| plain_allOf schemas : plain_all schemas -> plain_with (SFun (allOf schemas))
with plain_all : list Schema -> Prop :=
| plain_all_nil : plain_all []
| plain_all_cons schema schemas :
    plain_with schema -> plain_all schemas -> plain_all (schema :: schemas)
with plain_fields : list (PropertyKey * Schema) -> Prop :=
| plain_fields_nil : plain_fields []
| plain_fields_cons i schema fields :
    inherited i = false ->
    plain_with schema -> plain_fields fields -> plain_fields ((i, schema) :: fields).

Scheme plain_mut := Minimality for plain_with Sort Prop
  with plain_all_mut := Minimality for plain_all Sort Prop
  with plain_fields_mut := Minimality for plain_fields Sort Prop.
Combined Scheme plain_mutind from plain_mut, plain_all_mut, plain_fields_mut.

(** A schema is well behaved when [validate] against it is steady, from
    any heap, and returns only the value it was given. *)
Definition well_behaved (schema : Schema) : Prop :=
  forall x, steady (fun _ => True) (eq x) (validate x schema).

End plain_schemas.

(** With every literal admitted. *)
Abbreviation plain := (plain_with (fun _ => true)).

(** With every literal but the bigints, on which [JSON.stringify]
    throws. *)
Abbreviation plain_unless_bigint := (plain_with (fun p => negb (is_bigint p))).

(** ** Schemas that only look *)

(** An array with its holes turned into elements that are [undefined]. *)
Definition filled (elems : list (option value)) : list (option value) :=
  (fun e => Some (default undefined e)) <$> elems.


(** [orderly m]: [m] throws nothing but [ValidationError]s. *)
Definition orderly {A} (m : M A) : Prop :=
  forall h,
    match m h with
    | Throw (OtherError _) _ => False
    | _ => True
    end.

Section looking_schemas.
Context `{Engine}.

(** [decides schema accepts info]: the schema returns the values that
    [accepts] holds of, as they are, and throws [info v] on any other
    value [v]; it never touches the heap. *)
Definition decides (schema : Schema) (accepts : value -> bool)
    (info : value -> ErrorInfo) : Prop :=
  forall v h,
    validate v schema h
    = if accepts v then Return v h else Throw (ValidationError (info v)) h.

End looking_schemas.


(** Runs a closed case: the heap and the error are found by evaluation. *)
Ltac run_test := repeat eexists; vm_compute; reflexivity.

(** * Properties *)

Section properties.
Context `{Engine}.

(** ** Agreement with the tests of the repository

    Cases of [test/structure.test.ts], run on the model. *)

Example test_struct_object :
  let v := struct (SObj [("x", SFun (string None))]) in
  passes v (Ref 6) test_heap
  /\ rejects v null test_heap /\ rejects v undefined test_heap
  /\ rejects v (Ref 1) test_heap /\ rejects v (Ref 7) test_heap.
Proof. repeat split; run_test. Qed.

Example test_struct_tuple :
  let v := struct (SArr [SFun number; SFun (string None)]) in
  passes v (Ref 0) test_heap
  /\ rejects v null test_heap /\ rejects v (Ref 1) test_heap
  /\ rejects v (Ref 2) test_heap /\ rejects v (Ref 3) test_heap
  /\ rejects v (Ref 4) test_heap.
Proof. repeat split; run_test. Qed.

Example test_array :
  passes (array 11 (SFun any)) (Ref 5) test_heap
  /\ passes (array 11 (SFun any)) (Ref 10) test_heap
  /\ rejects (array 11 (SFun any)) (Ref 1) test_heap
  /\ rejects (array 11 (SFun any)) (Bool true) test_heap
  /\ passes (array 11 (SFun (string None))) (Ref 10) test_heap
  /\ rejects (array 11 (SFun (string None))) (Ref 5) test_heap
  /\ rejects (array 11 (SFun (string None))) (Ref 3) test_heap.
Proof. repeat split; run_test. Qed.

Example test_record :
  let v := record (SFun (string None)) (SFun number) in
  v (Ref 8) test_heap
  = Return (Ref 11) (test_heap ++ [CObject [("0", Num (-1)); ("x", Num 2)]])
  /\ v (Ref 1) test_heap = Return (Ref 11) (test_heap ++ [CObject []])
  /\ rejects v (Ref 9) test_heap /\ rejects v (Ref 7) test_heap
  /\ rejects v null test_heap /\ rejects v (Ref 10) test_heap.
Proof. repeat split; run_test. Qed.

Example test_maybe :
  passes (maybe (SFun number) None) (Num 3) test_heap
  /\ passes (maybe (SFun number) None) undefined test_heap
  /\ rejects (maybe (SFun number) None) null test_heap
  /\ maybe (SFun (string None)) (Some (Str "default")) undefined test_heap
     = Return (Str "default") test_heap
  /\ passes (maybe (SFun (string None)) (Some (Str "default"))) (Str "") test_heap
  /\ rejects (maybe (SFun (string None)) (Some (Str "default"))) (Num 1) test_heap.
Proof. repeat split; run_test. Qed.

Example test_anyOf :
  let v := anyOf [SFun (string None); SFun number] in
  passes v (Num 0.5) test_heap /\ passes v (Str "test") test_heap
  /\ rejects v null test_heap /\ rejects v (Bool false) test_heap
  /\ rejects v (Num nan) test_heap /\ rejects v (Ref 10) test_heap.
Proof. repeat split; run_test. Qed.

Example test_oneOf :
  let v := oneOf [SFun (anyOf [SLit (PString "a"); SLit (PString "b")]);
                  SFun (anyOf [SLit (PString "a"); SLit (PString "c");
                               SLit (PString "d")])] in
  passes v (Str "b") test_heap /\ passes v (Str "c") test_heap
  /\ passes v (Str "d") test_heap /\ rejects v (Str "") test_heap
  /\ rejects v (Str "a") test_heap /\ rejects v (Str "e") test_heap.
Proof. repeat split; run_test. Qed.

Example test_filter :
  let v := filter (SFun (string None)) medium_length None in
  passes v (Str "01234") test_heap /\ passes v (Str "testing") test_heap
  /\ rejects v (Str "four") test_heap /\ rejects v (Str "888ww888") test_heap
  /\ rejects v (Num 0.5) test_heap /\ rejects v (Ref 1) test_heap.
Proof. repeat split; run_test. Qed.

Example test_scalars :
  passes boolean (Bool false) test_heap /\ rejects boolean (Num 0) test_heap
  /\ passes number (Num (-1.5)) test_heap /\ rejects number (Num infinity) test_heap
  /\ rejects number (Str "1") test_heap
  /\ passes integer (Num 9007199254740991) test_heap
  /\ rejects integer (Num 0.5) test_heap /\ rejects integer (Num nan) test_heap
  /\ passes (struct (SLit PNull)) null test_heap
  /\ rejects (struct (SLit PNull)) undefined test_heap
  /\ passes (struct (SLit PUndefined)) undefined test_heap
  /\ rejects (struct (SLit (PString "test"))) (Str "not-test") test_heap
  /\ passes any (Ref 2) test_heap /\ rejects never undefined test_heap.
Proof. repeat split; run_test. Qed.

(** ** The logical combinators *)

Lemma attempt_Return x schema h v h' :
  validate x schema h = Return v h' ->
  attempt x schema h = Return (inl v) h'.
Proof. intros E. unfold attempt, try_catch, bind. now rewrite E. Qed.

Lemma attempt_ValidationError x schema h info h' :
  validate x schema h = Throw (ValidationError info) h' ->
  attempt x schema h = Return (inr info) h'.
Proof. intros E. unfold attempt, try_catch, bind. now rewrite E. Qed.

Lemma attempt_OtherError x schema h name h' :
  validate x schema h = Throw (OtherError name) h' ->
  attempt x schema h = Throw (OtherError name) h'.
Proof. intros E. unfold attempt, try_catch, bind. now rewrite E. Qed.

Lemma anyOf_loop_skip x pre rest failures h infos h1 :
  all_fail x pre h infos h1 ->
  anyOf_loop x (pre ++ rest) failures h
  = anyOf_loop x rest (failures ++ infos) h1.
Proof.
  intros F. revert failures.
  induction F as [h | schema pre h info h1 infos h2 E F IH]; intros failures.
  - now rewrite app_nil_r.
  - cbn [app anyOf_loop]. unfold bind at 1.
    rewrite (attempt_ValidationError _ _ _ _ _ E), IH.
    now rewrite <- app_assoc.
Qed.

Lemma oneOf_loop_skip x pre rest count result failures h infos h1 :
  all_fail x pre h infos h1 ->
  oneOf_loop x (pre ++ rest) count result failures h
  = oneOf_loop x rest count result (failures ++ infos) h1.
Proof.
  intros F. revert failures.
  induction F as [h | schema pre h info h1 infos h2 E F IH]; intros failures.
  - now rewrite app_nil_r.
  - cbn [app oneOf_loop]. unfold bind at 1.
    rewrite (attempt_ValidationError _ _ _ _ _ E), IH.
    now rewrite <- app_assoc.
Qed.

(** C1: [anyOf] tries its schemas in argument order.  When the schemas
    before some schema all fail validation and that schema succeeds, its
    result is returned, whatever the later schemas are (they are not run:
    the heap is the one the successful schema leaves).  When every schema
    fails validation, a [union] error with an empty path is thrown whose
    [failures] are the [info]s of all the alternatives, in order.  In
    particular a value that the first two schemas both accept gets the
    result of the first. *)
Theorem anyOf_first_match (x : value) :
  (forall pre schema post h failures h1 v h2,
      all_fail x pre h failures h1 ->
      validate x schema h1 = Return v h2 ->
      anyOf (pre ++ schema :: post) x h = Return v h2)
  /\ (forall first second post h v h1,
         validate x first h = Return v h1 ->
         anyOf (first :: second :: post) x h = Return v h1)
  /\ (forall schemas h failures h',
         all_fail x schemas h failures h' ->
         anyOf schemas x h
         = Throw (ValidationError (mkInfo (Union failures) [])) h').
Proof.
  split; [| split].
  - intros pre schema post h failures h1 v h2 F E. unfold anyOf.
    rewrite (anyOf_loop_skip _ _ _ _ _ _ _ F). cbn [anyOf_loop].
    unfold bind. now rewrite (attempt_Return _ _ _ _ _ E).
  - intros first second post h v h1 E. unfold anyOf. cbn [anyOf_loop].
    unfold bind. now rewrite (attempt_Return _ _ _ _ _ E).
  - intros schemas h failures h' F. unfold anyOf.
    rewrite <- (app_nil_r schemas), (anyOf_loop_skip _ _ _ _ _ _ _ F).
    reflexivity.
Qed.

(** C2: [oneOf] runs its schemas in order and counts the successes.  With
    one success among validation failures, the result of that schema is
    returned; with none, a [union] error carrying every alternative's
    failure is thrown; at the second success an [unexpected] error is
    thrown at once, whatever schemas remain.  On the two overlapping
    unions of the example, ["a"] is rejected as [unexpected] and ["b"] is
    returned. *)
Theorem oneOf_exactly_one (x : value) :
  (forall pre schema post h f1 h1 v h2 f2 h3,
      all_fail x pre h f1 h1 ->
      validate x schema h1 = Return v h2 ->
      all_fail x post h2 f2 h3 ->
      oneOf (pre ++ schema :: post) x h = Return v h3)
  /\ (forall schemas h failures h',
         all_fail x schemas h failures h' ->
         oneOf schemas x h
         = Throw (ValidationError (mkInfo (Union failures) [])) h')
  /\ (forall pre s1 mid s2 post h f1 h1 v1 h2 f2 h3 v2 h4,
         all_fail x pre h f1 h1 ->
         validate x s1 h1 = Return v1 h2 ->
         all_fail x mid h2 f2 h3 ->
         validate x s2 h3 = Return v2 h4 ->
         oneOf (pre ++ s1 :: mid ++ s2 :: post) x h
         = Throw (ValidationError (mkInfo Unexpected [])) h4)
  /\ (forall h,
         let a_or_b := SFun (anyOf [SLit (PString "a"); SLit (PString "b")]) in
         let a_or_c := SFun (anyOf [SLit (PString "a"); SLit (PString "c")]) in
         oneOf [a_or_b; a_or_c] (Str "a") h
         = Throw (ValidationError (mkInfo Unexpected [])) h
         /\ oneOf [a_or_b; a_or_c] (Str "b") h = Return (Str "b") h).
Proof.
  split; [| split; [| split]].
  - intros pre schema post h f1 h1 v h2 f2 h3 F1 E F2. unfold oneOf.
    rewrite (oneOf_loop_skip _ _ _ _ _ _ _ _ _ F1). cbn [oneOf_loop].
    unfold bind at 1. rewrite (attempt_Return _ _ _ _ _ E). cbn.
    rewrite <- (app_nil_r post), (oneOf_loop_skip _ _ _ _ _ _ _ _ _ F2).
    reflexivity.
  - intros schemas h failures h' F. unfold oneOf.
    rewrite <- (app_nil_r schemas), (oneOf_loop_skip _ _ _ _ _ _ _ _ _ F).
    reflexivity.
  - intros pre s1 mid s2 post h f1 h1 v1 h2 f2 h3 v2 h4 F1 E1 F2 E2.
    unfold oneOf.
    rewrite (oneOf_loop_skip _ _ _ _ _ _ _ _ _ F1). cbn [oneOf_loop].
    unfold bind at 1. rewrite (attempt_Return _ _ _ _ _ E1). cbn.
    rewrite (oneOf_loop_skip _ _ _ _ _ _ _ _ _ F2). cbn [oneOf_loop].
    unfold bind at 1. rewrite (attempt_Return _ _ _ _ _ E2). reflexivity.
  - intros h a_or_b a_or_c. split; reflexivity.
Qed.

(** C9: [anyOf] and [oneOf] catch only [ValidationError]s.  When an
    alternative throws anything else, after alternatives that failed
    validation (and, for [oneOf], possibly one that succeeded), that very
    exception comes out, from the heap the alternative left, whatever
    schemas remain: no later alternative is run and no [union] or
    [unexpected] error is made. *)
Theorem anyOf_oneOf_foreign_exception (x : value) :
  (forall pre schema post h failures h1 name h2,
      all_fail x pre h failures h1 ->
      validate x schema h1 = Throw (OtherError name) h2 ->
      anyOf (pre ++ schema :: post) x h = Throw (OtherError name) h2)
  /\ (forall pre schema post h failures h1 name h2,
         all_fail x pre h failures h1 ->
         validate x schema h1 = Throw (OtherError name) h2 ->
         oneOf (pre ++ schema :: post) x h = Throw (OtherError name) h2)
  /\ (forall pre s1 mid schema post h f1 h1 v1 h2 f2 h3 name h4,
         all_fail x pre h f1 h1 ->
         validate x s1 h1 = Return v1 h2 ->
         all_fail x mid h2 f2 h3 ->
         validate x schema h3 = Throw (OtherError name) h4 ->
         oneOf (pre ++ s1 :: mid ++ schema :: post) x h
         = Throw (OtherError name) h4).
Proof.
  split; [| split].
  - intros pre schema post h failures h1 name h2 F E. unfold anyOf.
    rewrite (anyOf_loop_skip _ _ _ _ _ _ _ F). cbn [anyOf_loop].
    unfold bind. now rewrite (attempt_OtherError _ _ _ _ _ E).
  - intros pre schema post h failures h1 name h2 F E. unfold oneOf.
    rewrite (oneOf_loop_skip _ _ _ _ _ _ _ _ _ F). cbn [oneOf_loop].
    unfold bind. now rewrite (attempt_OtherError _ _ _ _ _ E).
  - intros pre s1 mid schema post h f1 h1 v1 h2 f2 h3 name h4 F1 E1 F2 E.
    unfold oneOf.
    rewrite (oneOf_loop_skip _ _ _ _ _ _ _ _ _ F1). cbn [oneOf_loop].
    unfold bind at 1. rewrite (attempt_Return _ _ _ _ _ E1). cbn.
    rewrite (oneOf_loop_skip _ _ _ _ _ _ _ _ _ F2). cbn [oneOf_loop].
    unfold bind. now rewrite (attempt_OtherError _ _ _ _ _ E).
Qed.

(** ** The dispatcher *)

Lemma bind_assoc {A B C} (m : M A) (k1 : A -> M B) (k2 : B -> M C) h :
  bind (bind m k1) k2 h = bind m (fun a => bind (k1 a) k2) h.
Proof. unfold bind. now destruct (m h). Qed.

Lemma bind_ext {A B} (m : M A) (k1 k2 : A -> M B) h :
  (forall a h', k1 a h' = k2 a h') -> bind m k1 h = bind m k2 h.
Proof. intros E. unfold bind. destruct (m h); auto. Qed.

Lemma bind_ret_r {A} (m : M A) h : bind m ret h = m h.
Proof. unfold bind, ret. now destruct (m h). Qed.

Lemma validate_in_place_Return validate_i x k path h v h' :
  validate_i (get h x k) h = Return v h' ->
  validate_in_place validate_i x k path h = Return tt (set h' x k v).
Proof.
  intros E. unfold validate_in_place, try_catch, bind, read. now rewrite E.
Qed.

Lemma validate_in_place_Throw validate_i x k path h e h' :
  validate_i (get h x k) h = Throw e h' ->
  validate_in_place validate_i x k path h = Throw (pushed e path) h'.
Proof.
  intros E. unfold validate_in_place, try_catch, bind, read. now rewrite E.
Qed.

Lemma validate_in_place_Diverge validate_i x k path h :
  validate_i (get h x k) h = Diverge ->
  validate_in_place validate_i x k path h = Diverge.
Proof.
  intros E. unfold validate_in_place, try_catch, bind, read. now rewrite E.
Qed.

Lemma validate_SObj x fields h :
  validate x (SObj fields) h
  = if shape_mismatch false 0 x h
    then Throw (ValidationError (mkInfo (Expected (Some "object")) [])) h
    else bind (validate_fields x fields) (fun _ => ret x) h.
Proof. cbn [validate]. unfold bind at 1, read. now destruct shape_mismatch. Qed.

Lemma validate_SArr x items h :
  validate x (SArr items) h
  = if shape_mismatch true (length items) x h
    then Throw (ValidationError
                  (mkInfo (Expected (Some ("array[" +:+ string_of_nat (length items) +:+ "]"))) [])) h
    else bind (validate_items x 0 items) (fun _ => ret x) h.
Proof. cbn [validate]. unfold bind at 1, read. now destruct shape_mismatch. Qed.

Lemma validate_fields_cons x i s rest h :
  validate_fields x ((i, s) :: rest) h
  = bind (validate_in_place (fun xi => validate xi s) x i (KStr i))
         (fun _ => validate_fields x rest) h.
Proof. reflexivity. Qed.

Lemma validate_items_cons x i s rest h :
  validate_items x i (s :: rest) h
  = bind (validate_in_place (fun xi => validate xi s) x
                            (string_of_nat i) (KStr (string_of_nat i)))
         (fun _ => validate_items x (S i) rest) h.
Proof. reflexivity. Qed.

Lemma shape_mismatch_object h l props :
  h !! l = Some (CObject props) ->
  shape_mismatch false 0 (Ref l) h = false.
Proof. intros E. unfold shape_mismatch. cbn. now rewrite E. Qed.

Lemma shape_mismatch_array h x n :
  shape_mismatch true n x h
  = negb (Array_isArray h x && (n =? array_length h x)%nat).
Proof.
  unfold shape_mismatch. destruct x as [p | l]; [now destruct p |].
  reflexivity.
Qed.

Lemma get_object h l props i :
  h !! l = Some (CObject props) ->
  get h (Ref l) i = default undefined (props_get i props).
Proof. intros E. cbn. now rewrite E. Qed.

(** C3: a failure inside nested object schemas carries its path innermost
    key first.  Each frame of [validate] whose field fails validation
    pushes the key of that field onto the path of the error it lets
    through; for the schema [{a: {b: number()}}] and the input
    [{a: {b: "x"}}] the error thrown is [expected "finite number"] with
    the path [["b"; "a"]], which read backwards is the way from the root,
    [a] then [b]; the input is left as it was. *)
Theorem nested_failure_path :
  (forall x i s rest h info h1,
      shape_mismatch false 0 x h = false ->
      validate (get h x i) s h = Throw (ValidationError info) h1 ->
      validate x (SObj ((i, s) :: rest)) h
      = Throw (ValidationError (push_path info (KStr i))) h1)
  /\ (forall la lb h,
         h !! la = Some (CObject [("a", Ref lb)]) ->
         h !! lb = Some (CObject [("b", Str "x")]) ->
         validate (Ref la) (SObj [("a", SObj [("b", SFun number)])]) h
         = Throw (ValidationError
                    (mkInfo (Expected (Some "finite number"))
                            [KStr "b"; KStr "a"])) h)
  /\ rev [KStr "b"; KStr "a"] = [KStr "a"; KStr "b"].
Proof.
  assert (frame : forall x i s rest h info h1,
             shape_mismatch false 0 x h = false ->
             validate (get h x i) s h = Throw (ValidationError info) h1 ->
             validate x (SObj ((i, s) :: rest)) h
             = Throw (ValidationError (push_path info (KStr i))) h1).
  { intros x i s rest h info h1 Hx E.
    rewrite validate_SObj, Hx. unfold bind at 1.
    rewrite validate_fields_cons. unfold bind at 1.
    now rewrite (validate_in_place_Throw _ _ _ _ _ _ _ E). }
  split; [exact frame | split; [| reflexivity]].
  intros la lb h Ha Hb.
  assert (inner : validate (Ref lb) (SObj [("b", SFun number)]) h
                  = Throw (ValidationError
                             (mkInfo (Expected (Some "finite number")) [KStr "b"])) h).
  { apply (frame (Ref lb) "b" (SFun number) [] h
                 (mkInfo (Expected (Some "finite number")) []) h).
    - exact (shape_mismatch_object _ _ _ Hb).
    - now rewrite (get_object _ _ _ _ Hb). }
  apply (frame (Ref la) "a" (SObj [("b", SFun number)]) [] h
               (mkInfo (Expected (Some "finite number")) [KStr "b"]) h).
  - exact (shape_mismatch_object _ _ _ Ha).
  - now rewrite (get_object _ _ _ _ Ha).
Qed.


Lemma get_array h l elems k n :
  h !! l = Some (CArray elems) ->
  array_index k = Some n ->
  get h (Ref l) k = elems_get n elems.
Proof. intros E K. cbn. now rewrite E, K. Qed.

Lemma set_array h l elems k n v :
  h !! l = Some (CArray elems) ->
  array_index k = Some n ->
  set h (Ref l) k v = <[l := CArray (elems_set n v elems)]> h.
Proof. intros E K. cbn. now rewrite E, K. Qed.

(** C6: an array schema of [N] items accepts only arrays of length [N].
    On anything that is not an array, and on an array of another length,
    [validate] throws [expected "array[N]"] with an empty path and leaves
    the heap alone; so a call that returns was given an array of length
    [N].  [[number(), string()]] rejects [[0, "", 0]] with
    [expected "array[2]"] and returns the array [[0, ""]] it was given. *)
Theorem array_schema_arity (items : list Schema) (x : value) (h : heap) :
  (Array_isArray h x = false \/ array_length h x <> length items ->
   validate x (SArr items) h
   = Throw (ValidationError
              (mkInfo (Expected (Some ("array[" +:+ string_of_nat (length items)
                                       +:+ "]"))) [])) h)
  /\ (forall r h',
         validate x (SArr items) h = Return r h' ->
         Array_isArray h x = true /\ array_length h x = length items)
  /\ (forall l,
         h !! l = Some (CArray [Some (Num 0); Some (Str ""); Some (Num 0)]) ->
         validate (Ref l) (SArr [SFun number; SFun (string None)]) h
         = Throw (ValidationError (mkInfo (Expected (Some "array[2]")) [])) h)
  /\ (forall l,
         h !! l = Some (CArray [Some (Num 0); Some (Str "")]) ->
         validate (Ref l) (SArr [SFun number; SFun (string None)]) h
         = Return (Ref l) h).
Proof.
  assert (reject : Array_isArray h x = false \/ array_length h x <> length items ->
                   shape_mismatch true (length items) x h = true).
  { intros D. rewrite shape_mismatch_array. apply negb_true_iff.
    apply andb_false_iff. destruct D as [D | D]; [now left | right].
    apply Nat.eqb_neq. congruence. }
  split; [| split; [| split]].
  - intros D. now rewrite validate_SArr, (reject D).
  - intros r h' E. rewrite validate_SArr, shape_mismatch_array in E.
    destruct (Array_isArray h x) eqn:A; [| discriminate].
    destruct (Nat.eqb_spec (length items) (array_length h x)) as [L | L];
      [auto | discriminate].
  - intros l E. rewrite validate_SArr, shape_mismatch_array. cbn.
    now rewrite E.
  - intros l E. rewrite validate_SArr, shape_mismatch_array.
    replace (Array_isArray h (Ref l)) with true by (cbn; now rewrite E).
    replace (array_length h (Ref l)) with 2 by (cbn; now rewrite E).
    cbn [length Nat.eqb andb negb]. unfold bind at 1.
    rewrite validate_items_cons. unfold bind at 1.
    rewrite (validate_in_place_Return _ _ _ _ _ (Num 0) h)
      by (cbv beta; now rewrite (get_array _ _ _ (string_of_nat 0) 0 E eq_refl)).
    rewrite (set_array _ _ _ (string_of_nat 0) 0 _ E eq_refl).
    change (elems_set 0 (Num 0) [Some (Num 0); Some (Str "")])
      with [Some (Num 0); Some (Str "")].
    rewrite (list_insert_id h l _ E).
    rewrite validate_items_cons. unfold bind at 1.
    rewrite (validate_in_place_Return _ _ _ _ _ (Str "") h)
      by (cbv beta; now rewrite (get_array _ _ _ (string_of_nat 1) 1 E eq_refl)).
    rewrite (set_array _ _ _ (string_of_nat 1) 1 _ E eq_refl).
    change (elems_set 1 (Str "") [Some (Num 0); Some (Str "")])
      with [Some (Num 0); Some (Str "")].
    now rewrite (list_insert_id h l _ E).
Qed.

(** ** [allOf] *)

Lemma allOf_cons schema rest x h :
  allOf (schema :: rest) x h
  = match validate x schema h with
    | Return v h' => allOf rest v h'
    | Throw e h' => Throw e h'
    | Diverge => Diverge
    end.
Proof. reflexivity. Qed.

Lemma Array_reduce_fold_left schemas :
  forall (m : M value) h,
    bind m (Array_reduce validate schemas) h
    = fold_left (fun acc schema => v <- acc ;; validate v schema) schemas m h.
Proof.
  induction schemas as [| schema rest IH]; intros m h.
  - apply bind_ret_r.
  - cbn [fold_left]. rewrite <- IH. now rewrite bind_assoc.
Qed.

Lemma Array_reduce_app schemas rest :
  forall x h,
    Array_reduce validate (schemas ++ rest) x h
    = bind (Array_reduce validate schemas x) (Array_reduce validate rest) h.
Proof.
  induction schemas as [| schema schemas IH]; intros x h.
  - reflexivity.
  - cbn [app Array_reduce]. rewrite bind_assoc.
    apply bind_ext. intros a h'. apply IH.
Qed.

Lemma strict_equals_string x s :
  strict_equals x (PString s) = true -> x = Str s.
Proof.
  destruct x as [[| | b | n | s' | z] | l]; try discriminate.
  cbn. intros E. apply String.eqb_eq in E. now subst.
Qed.

Lemma anyOf_loop_literals literals x failures h :
  forallb (fun p => negb (is_bigint p)) literals = true ->
  anyOf_loop x (SLit <$> literals) failures h
  = if existsb (strict_equals x) literals then Return x h
    else Throw (ValidationError
                  (mkInfo (Union (failures ++
                                  ((fun p => mkInfo (Expected (JSON_stringify p)) [])
                                     <$> literals))) [])) h.
Proof.
  revert failures. induction literals as [| p literals IH]; intros failures N.
  - cbn. now rewrite app_nil_r.
  - cbn [forallb] in N. apply andb_true_iff in N as [Np N].
    cbn [fmap list_fmap anyOf_loop existsb]. unfold bind, attempt, try_catch, ret.
    cbn [validate]. destruct (strict_equals x p); [reflexivity |].
    destruct p; try discriminate Np; cbn; rewrite (IH _ N);
      now rewrite <- app_assoc.
Qed.

Lemma anyOf_literals literals x h :
  forallb (fun p => negb (is_bigint p)) literals = true ->
  anyOf (SLit <$> literals) x h
  = if existsb (strict_equals x) literals then Return x h
    else Throw (ValidationError
                  (mkInfo (Union ((fun p => mkInfo (Expected (JSON_stringify p)) [])
                                    <$> literals)) [])) h.
Proof. apply anyOf_loop_literals. Qed.

(** C7: [allOf] folds [validate] over its schemas from the left.  The
    input goes to the first schema, each later schema is given the result
    of the one before it, and the value returned is the result of the
    last; the first schema that does not return ends the chain, and what
    it threw is thrown on as it is.  The intersection of ["a" | "b" | "c"]
    and ["a" | "c" | "d"] returns ["a"] and ["c"], and nothing else
    passes it: it throws a [ValidationError] on ["b"], ["d"], ["e"] and
    [""]. *)
Theorem allOf_left_fold :
  (forall schemas x h,
      allOf schemas x h
      = fold_left (fun acc schema => v <- acc ;; validate v schema)
                  schemas (ret x) h)
  /\ (forall x h, allOf [] x h = Return x h)
  /\ (forall schema rest x h,
         allOf (schema :: rest) x h
         = match validate x schema h with
           | Return v h' => allOf rest v h'
           | Throw e h' => Throw e h'
           | Diverge => Diverge
           end)
  /\ (forall schemas last x h,
         allOf (schemas ++ [last]) x h
         = (v <- allOf schemas x ;; validate v last) h)
  /\ (let narrowed :=
        allOf [SFun (anyOf [SLit (PString "a"); SLit (PString "b");
                            SLit (PString "c")]);
               SFun (anyOf [SLit (PString "a"); SLit (PString "c");
                            SLit (PString "d")])] in
      forall h,
        narrowed (Str "a") h = Return (Str "a") h
        /\ narrowed (Str "c") h = Return (Str "c") h
        /\ (forall x v h', narrowed x h = Return v h' ->
                           x = Str "a" \/ x = Str "c")
        /\ (forall x, In x [Str "b"; Str "d"; Str "e"; Str ""] ->
                      exists info, narrowed x h = Throw (ValidationError info) h)).
Proof.
  split; [| split; [| split; [| split]]].
  - intros schemas x h. unfold allOf.
    now rewrite <- Array_reduce_fold_left.
  - reflexivity.
  - intros. apply allOf_cons.
  - intros schemas last x h. unfold allOf. rewrite Array_reduce_app.
    unfold bind. destruct (Array_reduce validate schemas x h); try reflexivity.
    cbn. unfold bind. now destruct (validate a last h0).
  - intros narrowed h. split; [reflexivity | split; [reflexivity | split]].
    + intros x v h' E. subst narrowed. rewrite allOf_cons in E.
      cbn [validate] in E.
      rewrite (anyOf_literals [PString "a"; PString "b"; PString "c"]) in E
        by reflexivity.
      destruct (existsb _ _) eqn:In1; [| discriminate E].
      rewrite allOf_cons in E. cbn [validate] in E.
      rewrite (anyOf_literals [PString "a"; PString "c"; PString "d"]) in E
        by reflexivity.
      cbn [existsb] in In1. rewrite !orb_true_iff in In1.
      destruct In1 as [In1 | [In1 | [In1 | In1]]]; try discriminate In1;
        apply strict_equals_string in In1; subst x; auto; discriminate E.
    + intros x [<- | [<- | [<- | [<- | []]]]]; eexists; reflexivity.
Qed.


(** ** Reading back what was written *)

Lemma props_get_update k k' v props :
  props_get k' (props_update k v props)
  = if String.eqb k' k
    then (match props_get k props with Some _ => Some v | None => None end)
    else props_get k' props.
Proof.
  induction props as [| [k0 v0] rest IH]; cbn.
  - now destruct (String.eqb k' k).
  - destruct (String.eqb_spec k0 k) as [-> | N0]; cbn.
    + destruct (String.eqb_spec k k') as [-> | N];
        [now rewrite String.eqb_refl |].
      destruct (String.eqb_spec k' k) as [-> | _]; [congruence | reflexivity].
    + destruct (String.eqb_spec k0 k') as [-> | N].
      * destruct (String.eqb_spec k' k) as [-> | _]; [congruence | reflexivity].
      * exact IH.
Qed.

Lemma props_get_app k props k0 v :
  props_get k (props ++ [(k0, v)])
  = match props_get k props with
    | Some w => Some w
    | None => if String.eqb k0 k then Some v else None
    end.
Proof.
  induction props as [| [k1 v1] rest IH]; cbn; [reflexivity |].
  now destruct (String.eqb k1 k).
Qed.

Lemma props_get_add_index n k v props k' :
  props_get k props = None ->
  props_get k' (props_add_index n k v props)
  = if String.eqb k k' then Some v else props_get k' props.
Proof.
  induction props as [| [k0 v0] rest IH]; cbn [props_add_index props_get];
    intros Hk.
  - reflexivity.
  - destruct (String.eqb_spec k0 k) as [-> | N0]; [discriminate |].
    destruct (integer_index k0) as [n' |]; [destruct (n <? n')%N |];
      cbn [props_get]; try reflexivity.
    rewrite (IH Hk).
    destruct (String.eqb_spec k k') as [E | _]; [| reflexivity].
    destruct (String.eqb_spec k0 k') as [E0 | _]; [congruence | reflexivity].
Qed.

Lemma props_get_set k v props k' :
  k <> "__proto__" \/ props_has k props = true ->
  props_get k' (props_set k v props)
  = if String.eqb k k' then Some v else props_get k' props.
Proof.
  unfold props_set, props_has. intros Own.
  destruct (props_get k props) as [w |] eqn:G.
  - rewrite props_get_update, G, String.eqb_sym.
    reflexivity.
  - destruct Own as [N | Own]; [| discriminate Own].
    destruct (String.eqb_spec k "__proto__") as [-> | _]; [congruence |].
    destruct (integer_index k) as [n |].
    + now apply props_get_add_index.
    + rewrite props_get_app.
      destruct (String.eqb_spec k k') as [<- | _];
        [now rewrite G | now destruct (props_get k' props)].
Qed.


Lemma inherited_proto : inherited "__proto__" = true.
Proof. reflexivity. Qed.

Lemma not_inherited_not_proto k : inherited k = false -> k <> "__proto__".
Proof. intros I ->. discriminate I. Qed.

Lemma elems_get_set n v elems m :
  elems_get m (elems_set n v elems)
  = if (n =? m)%nat then v else elems_get m elems.
Proof.
  unfold elems_get, elems_set.
  destruct (Nat.ltb_spec n (length elems)) as [L | L].
  - destruct (Nat.eqb_spec n m) as [<- | N].
    + now rewrite list_lookup_insert_eq.
    + now rewrite list_lookup_insert_ne.
  - destruct (Nat.eqb_spec n m) as [<- | N].
    + rewrite lookup_app_r by lia. rewrite lookup_app_r;
        rewrite length_replicate; [| lia].
      now replace (n - length elems - (n - length elems)) with 0 by lia.
    + destruct (Nat.lt_ge_cases m (length elems)) as [Lm | Lm].
      * now rewrite lookup_app_l.
      * rewrite (lookup_ge_None_2 elems m) by lia.
        rewrite lookup_app_r by lia.
        destruct (Nat.lt_ge_cases (m - length elems) (n - length elems)) as [Lg | Lg].
        -- rewrite lookup_app_l by (rewrite length_replicate; lia).
           now rewrite lookup_replicate_2.
        -- rewrite lookup_app_r by (rewrite length_replicate; lia).
           rewrite length_replicate.
           destruct (m - length elems - (n - length elems)) as [| d] eqn:D;
             [lia | reflexivity].
Qed.

Lemma get_set_object h l props i v :
  h !! l = Some (CObject props) ->
  i <> "__proto__" \/ props_has i props = true ->
  get (set h (Ref l) i v) (Ref l) i = v.
Proof.
  intros E Own. cbn. rewrite E.
  rewrite list_lookup_insert_eq by (now apply lookup_lt_Some in E).
  cbn. now rewrite (props_get_set _ _ _ _ Own), String.eqb_refl.
Qed.



(** ** What a computation leaves in place *)








Lemma record_unfold key_schema value_schema x h :
  record key_schema value_schema x h
  = if negb (String.eqb (typeof x) "object") || falsy x || Array_isArray h x
    then Throw (ValidationError (mkInfo (Expected (Some "object")) [])) h
    else bind (record_keys key_schema value_schema x (Ref (length h))
                           (own_keys (h ++ [CObject []]) x))
              (fun _ => ret (Ref (length h)))
              (h ++ [CObject []]).
Proof.
  unfold record, bind at 1, read.
  now destruct (negb (String.eqb (typeof x) "object") || falsy x || Array_isArray h x).
Qed.


(** ** Loops, in two parts *)

Lemma for_each_app {A} (body : A -> M unit) l1 l2 h :
  for_each body (l1 ++ l2) h
  = bind (for_each body l1) (fun _ => for_each body l2) h.
Proof.
  revert h. induction l1 as [| a l1 IH]; intros h; cbn [app for_each].
  - reflexivity.
  - rewrite bind_assoc. apply bind_ext. intros _ h'. apply IH.
Qed.

Lemma for_each_from_app {A} (body : nat -> A -> M unit) l1 l2 i h :
  for_each_from body i (l1 ++ l2) h
  = bind (for_each_from body i l1)
         (fun _ => for_each_from body (i + length l1) l2) h.
Proof.
  revert i h. induction l1 as [| a l1 IH]; intros i h; cbn [app for_each_from length].
  - unfold bind, ret. now rewrite Nat.add_0_r.
  - rewrite bind_assoc. apply bind_ext. intros _ h'. rewrite IH.
    now replace (S i + length l1) with (i + S (length l1)) by lia.
Qed.

Lemma rethrow_pushed {A} e path h :
  @rethrow A e path h = Throw (pushed e path) h.
Proof. reflexivity. Qed.

(** ** [record] *)

Lemma record_at_value_Throw x y i key_schema value_schema h e h1 :
  validate (get h x i) value_schema h = Throw e h1 ->
  record_at x y i key_schema value_schema h = Throw (pushed e (KStr i)) h1.
Proof.
  intros Ev. unfold record_at, bind at 1, try_catch at 1, bind at 1, read.
  now rewrite Ev.
Qed.

Lemma record_at_key_Throw x y i key_schema value_schema h v h1 e h2 :
  validate (get h x i) value_schema h = Return v h1 ->
  validate (Str i) key_schema h1 = Throw e h2 ->
  record_at x y i key_schema value_schema h
  = Throw (match e with
           | ValidationError info => ValidationError (mkInfo (Key info) [KStr i])
           | _ => e
           end) h2.
Proof.
  intros Ev Ek. unfold record_at, bind at 1, try_catch at 1, bind at 1, read.
  rewrite Ev. unfold try_catch, bind. now rewrite Ek.
Qed.

Lemma record_keys_cons key_schema value_schema x y i post h :
  record_keys key_schema value_schema x y (i :: post) h
  = if has_own h x i
    then bind (record_at x y i key_schema value_schema)
              (fun _ => record_keys key_schema value_schema x y post) h
    else record_keys key_schema value_schema x y post h.
Proof.
  unfold record_keys. cbn [for_each]. rewrite bind_assoc.
  unfold bind at 1, read. now destruct (has_own h x i).
Qed.

Lemma record_reaches key_schema value_schema l props h pre i post h1 :
  h !! l = Some (CObject props) ->
  props.*1 = pre ++ i :: post ->
  record_keys key_schema value_schema (Ref l) (Ref (length h)) pre
              (h ++ [CObject []]) = Return tt h1 ->
  has_own h1 (Ref l) i = true ->
  record key_schema value_schema (Ref l) h
  = bind (record_at (Ref l) (Ref (length h)) i key_schema value_schema)
         (fun _ =>
            record_keys key_schema value_schema (Ref l) (Ref (length h)) post ;;;
            ret (Ref (length h))) h1.
Proof.
  intros Hl Hk Hpre Hi. rewrite record_unfold.
  assert (L : l < length h) by (now apply lookup_lt_Some in Hl).
  replace (Array_isArray h (Ref l)) with false by (cbn; now rewrite Hl).
  cbn [typeof String.eqb Ascii.eqb Bool.eqb negb falsy orb].
  replace (own_keys (h ++ [CObject []]) (Ref l)) with (pre ++ i :: post)
    by (cbn; rewrite lookup_app_l by exact L; now rewrite Hl).
  unfold bind at 1. unfold record_keys at 1. rewrite for_each_app.
  fold (record_keys key_schema value_schema (Ref l) (Ref (length h)) pre).
  fold (record_keys key_schema value_schema (Ref l) (Ref (length h)) (i :: post)).
  unfold bind at 1. rewrite Hpre, record_keys_cons, Hi.
  exact (bind_assoc
           (record_at (Ref l) (Ref (length h)) i key_schema value_schema)
           (fun _ => record_keys key_schema value_schema (Ref l)
                                 (Ref (length h)) post)
           (fun _ => ret (Ref (length h))) h1).
Qed.

(** C8: for each key that [record] comes to, the value is validated
    before the key.  Let the keys before [i] have gone through and [i]
    still be a key of the input.  If the value under [i] then fails
    validation, [record] throws that error with [i] pushed onto its path,
    whatever the key schema is: the key is not looked at.  If the value
    validates and then the key [i] itself fails validation, [record]
    throws a [key] error that wraps the failure and whose path is [[i]],
    the key as it stands in the input. *)
Theorem record_value_before_key key_schema value_schema l props h pre i post h1 :
  h !! l = Some (CObject props) ->
  props.*1 = pre ++ i :: post ->
  record_keys key_schema value_schema (Ref l) (Ref (length h)) pre
              (h ++ [CObject []]) = Return tt h1 ->
  has_own h1 (Ref l) i = true ->
  (forall info h2,
      validate (get h1 (Ref l) i) value_schema h1
      = Throw (ValidationError info) h2 ->
      record key_schema value_schema (Ref l) h
      = Throw (ValidationError (push_path info (KStr i))) h2)
  /\ (forall v h2 info h3,
         validate (get h1 (Ref l) i) value_schema h1 = Return v h2 ->
         validate (Str i) key_schema h2 = Throw (ValidationError info) h3 ->
         record key_schema value_schema (Ref l) h
         = Throw (ValidationError (mkInfo (Key info) [KStr i])) h3).
Proof.
  intros Hl Hk Hpre Hi.
  pose proof (record_reaches _ _ _ _ _ _ _ _ _ Hl Hk Hpre Hi) as R.
  split.
  - intros info h2 Ev. rewrite R. unfold bind at 1.
    now rewrite (record_at_value_Throw _ _ _ _ _ _ _ _ Ev).
  - intros v h2 info h3 Ev Ek. rewrite R. unfold bind at 1.
    now rewrite (record_at_key_Throw _ _ _ _ _ _ _ _ _ _ Ev Ek).
Qed.


(** ** Failure part-way through a container *)

Lemma validate_fields_app x pre post h :
  validate_fields x (pre ++ post) h
  = bind (validate_fields x pre) (fun _ => validate_fields x post) h.
Proof. apply for_each_app. Qed.

Lemma validate_items_app x i pre post h :
  validate_items x i (pre ++ post) h
  = bind (validate_items x i pre)
         (fun _ => validate_items x (i + length pre) post) h.
Proof. apply for_each_from_app. Qed.

Lemma array_unfold fuel schema x h :
  array fuel schema x h
  = if Array_isArray h x
    then bind (array_loop fuel schema x 0) (fun _ => ret x) h
    else Throw (ValidationError (mkInfo (Expected (Some "array")) [])) h.
Proof. unfold array, bind at 1, read. now destruct (Array_isArray h x). Qed.

Lemma array_loop_Return fuel schema x i h v h1 :
  i < array_length h x ->
  validate (get h x (string_of_nat i)) schema h = Return v h1 ->
  array_loop (S fuel) schema x i h
  = array_loop fuel schema x (S i) (set h1 x (string_of_nat i) v).
Proof.
  intros L E. cbn [array_loop]. unfold bind at 1, read.
  apply Nat.ltb_lt in L. rewrite L.
  unfold bind at 1. now rewrite (validate_in_place_Return _ _ _ _ _ _ _ E).
Qed.

Lemma array_loop_Throw fuel schema x i h e h1 :
  i < array_length h x ->
  validate (get h x (string_of_nat i)) schema h = Throw e h1 ->
  array_loop (S fuel) schema x i h = Throw (pushed e (KNum i)) h1.
Proof.
  intros L E. cbn [array_loop]. unfold bind at 1, read.
  apply Nat.ltb_lt in L. rewrite L.
  unfold bind at 1. now rewrite (validate_in_place_Throw _ _ _ _ _ _ _ E).
Qed.

(** C10: a structural validation that fails leaves its earlier writes in
    the input.  For an object schema, and for an array schema, let the
    fields before the field [i] have gone through, leaving the heap [h1];
    going through one more field means validating [x[j]] and storing the
    result in [x[j]].  If the value under [i] then makes its schema
    throw, [validate] throws (with [i] pushed on the path) from the heap
    that schema left after [h1]: nothing is put back.  The loop of [array]
    does the same turn by turn: a turn that validates stores its result
    in [x[i]] and hands that heap to the next turn, and a turn that
    throws ends the loop in the heap it has.  So [{a: true, b: "x"}]
    against [{a: map(boolean(), x => !x), b: number()}] fails at [b] with
    [a] already [false], and [[true, 5]] against
    [array(map(boolean(), x => !x))] fails at index 1 with index 0 already
    [false]. *)
Theorem failure_is_not_atomic :
  (forall x pre i s post h h1 e h2,
      shape_mismatch false 0 x h = false ->
      validate_fields x pre h = Return tt h1 ->
      validate (get h1 x i) s h1 = Throw e h2 ->
      validate x (SObj (pre ++ (i, s) :: post)) h
      = Throw (pushed e (KStr i)) h2)
  /\ (forall x pre j t h h0 v h0',
         validate_fields x pre h = Return tt h0 ->
         validate (get h0 x j) t h0 = Return v h0' ->
         validate_fields x (pre ++ [(j, t)]) h = Return tt (set h0' x j v))
  /\ (forall x pre s post h h1 e h2,
         shape_mismatch true (length (pre ++ s :: post)) x h = false ->
         validate_items x 0 pre h = Return tt h1 ->
         validate (get h1 x (string_of_nat (length pre))) s h1 = Throw e h2 ->
         validate x (SArr (pre ++ s :: post)) h
         = Throw (pushed e (KStr (string_of_nat (length pre)))) h2)
  /\ (forall x pre t h h0 v h0',
         validate_items x 0 pre h = Return tt h0 ->
         validate (get h0 x (string_of_nat (length pre))) t h0 = Return v h0' ->
         validate_items x 0 (pre ++ [t]) h
         = Return tt (set h0' x (string_of_nat (length pre)) v))
  /\ (forall fuel schema x i h v h1,
         i < array_length h x ->
         validate (get h x (string_of_nat i)) schema h = Return v h1 ->
         array_loop (S fuel) schema x i h
         = array_loop fuel schema x (S i) (set h1 x (string_of_nat i) v))
  /\ (forall fuel schema x i h e h1,
         i < array_length h x ->
         validate (get h x (string_of_nat i)) schema h = Throw e h1 ->
         array_loop (S fuel) schema x i h = Throw (pushed e (KNum i)) h1)
  /\ validate (Ref 0)
              (SObj [("a", SFun (map (SFun boolean) negation));
                     ("b", SFun number)])
              [CObject [("a", Bool true); ("b", Str "x")]]
     = Throw (ValidationError
                (mkInfo (Expected (Some "finite number")) [KStr "b"]))
             [CObject [("a", Bool false); ("b", Str "x")]]
  /\ array 3 (SFun (map (SFun boolean) negation)) (Ref 0)
           [CArray [Some (Bool true); Some (Num 5)]]
     = Throw (ValidationError (mkInfo (Expected (Some "boolean")) [KNum 1]))
             [CArray [Some (Bool false); Some (Num 5)]].
Proof.
  split; [| split; [| split; [| split; [| split; [| split; [| split]]]]]].
  - intros x pre i s post h h1 e h2 Hx Hpre E.
    rewrite validate_SObj, Hx. unfold bind at 1.
    rewrite validate_fields_app. unfold bind at 1. rewrite Hpre.
    rewrite validate_fields_cons. unfold bind at 1.
    now rewrite (validate_in_place_Throw _ _ _ _ _ _ _ E).
  - intros x pre j t h h0 v h0' Hpre E.
    rewrite validate_fields_app. unfold bind at 1. rewrite Hpre.
    rewrite validate_fields_cons. unfold bind at 1.
    now rewrite (validate_in_place_Return _ _ _ _ _ _ _ E).
  - intros x pre s post h h1 e h2 Hx Hpre E.
    rewrite validate_SArr, Hx. unfold bind at 1.
    rewrite validate_items_app. unfold bind at 1. rewrite Hpre.
    rewrite validate_items_cons. unfold bind at 1. cbn [Nat.add].
    now rewrite (validate_in_place_Throw _ _ _ _ _ _ _ E).
  - intros x pre t h h0 v h0' Hpre E.
    rewrite validate_items_app. unfold bind at 1. rewrite Hpre.
    rewrite validate_items_cons. unfold bind at 1. cbn [Nat.add].
    now rewrite (validate_in_place_Return _ _ _ _ _ _ _ E).
  - intros. now apply array_loop_Return.
  - intros. now apply array_loop_Throw.
  - reflexivity.
  - reflexivity.
Qed.


(** ** Heaps that read alike *)

Lemma array_index_string_of_nat n : array_index (string_of_nat n) = Some n.
Proof.
  unfold array_index, string_of_nat. rewrite NilEmpty.usu. cbv zeta.
  rewrite DecimalNat.Unsigned.of_to. now rewrite String.eqb_refl.
Qed.

Lemma cell_alike_refl c : cell_alike c c.
Proof. destruct c; cbn; auto. intros k. now destruct (inherited k). Qed.

Lemma cell_alike_sym c1 c2 : cell_alike c1 c2 -> cell_alike c2 c1.
Proof.
  destruct c1, c2; cbn; try tauto.
  - intros E k. specialize (E k). now destruct (inherited k).
  - intros [L E]. split; [now symmetry | intros n; now rewrite E].
Qed.

Lemma cell_alike_trans c1 c2 c3 :
  cell_alike c1 c2 -> cell_alike c2 c3 -> cell_alike c1 c3.
Proof.
  destruct c1, c2, c3; cbn; try tauto.
  - intros E1 E2 k. specialize (E1 k). specialize (E2 k).
    destruct (inherited k); congruence.
  - intros [L1 E1] [L2 E2]. split; [congruence | intros n; now rewrite E1].
Qed.

Lemma cell_alike_get p1 p2 k :
  cell_alike (CObject p1) (CObject p2) ->
  default undefined (props_get k p1) = default undefined (props_get k p2).
Proof.
  intros C. specialize (C k). cbn in C.
  destruct (inherited k); [now rewrite C | exact C].
Qed.

Lemma alike_refl h : alike h h.
Proof. induction h; constructor; auto using cell_alike_refl. Qed.

Lemma alike_sym h1 h2 : alike h1 h2 -> alike h2 h1.
Proof. induction 1; constructor; auto using cell_alike_sym. Qed.

Lemma alike_trans h1 h2 h3 : alike h1 h2 -> alike h2 h3 -> alike h1 h3.
Proof.
  intros A. revert h3.
  induction A as [| c1 c2 h1 h2 C A IH]; intros h3 B; inversion B; subst.
  - constructor.
  - constructor; [eapply cell_alike_trans; eassumption | now apply IH].
Qed.

Lemma alike_lookup h1 h2 l :
  alike h1 h2 ->
  (h1 !! l = None /\ h2 !! l = None)
  \/ exists c1 c2, h1 !! l = Some c1 /\ h2 !! l = Some c2 /\ cell_alike c1 c2.
Proof.
  intros A. revert l. induction A as [| c1 c2 h1 h2 C A IH]; intros l.
  - left. now split.
  - destruct l as [| l]; cbn; [right; eauto | apply IH].
Qed.

Lemma alike_insert h l c c' :
  h !! l = Some c -> cell_alike c c' -> alike h (<[l := c']> h).
Proof.
  intros E C. rewrite <- (list_insert_id h l c E) at 1.
  apply Forall2_insert; [apply alike_refl | exact C].
Qed.

Lemma alike_get h1 h2 x k : alike h1 h2 -> get h1 x k = get h2 x k.
Proof.
  intros A. destruct x as [p | l]; [reflexivity |]. cbn.
  destruct (alike_lookup _ _ l A) as [[-> ->] | (c1 & c2 & -> & -> & C)];
    [reflexivity |].
  destruct c1, c2; try contradiction.
  - now apply cell_alike_get.
  - cbn in C. destruct (array_index k); [apply C | reflexivity].
Qed.

Lemma alike_isArray h1 h2 x :
  alike h1 h2 -> Array_isArray h1 x = Array_isArray h2 x.
Proof.
  intros A. destruct x as [p | l]; [reflexivity |]. cbn.
  destruct (alike_lookup _ _ l A) as [[-> ->] | (c1 & c2 & -> & -> & C)];
    [reflexivity |].
  destruct c1, c2; cbn in C; try contradiction; reflexivity.
Qed.

Lemma alike_array_length h1 h2 x :
  alike h1 h2 -> array_length h1 x = array_length h2 x.
Proof.
  intros A. destruct x as [p | l]; [reflexivity |]. cbn.
  destruct (alike_lookup _ _ l A) as [[-> ->] | (c1 & c2 & -> & -> & C)];
    [reflexivity |].
  destruct c1, c2; cbn in C; try contradiction; [reflexivity | apply C].
Qed.

Lemma alike_shape_mismatch is_array n x h1 h2 :
  alike h1 h2 -> shape_mismatch is_array n x h1 = shape_mismatch is_array n x h2.
Proof.
  intros A. unfold shape_mismatch.
  now rewrite (alike_isArray _ _ x A), (alike_array_length _ _ x A).
Qed.

Lemma alike_in_range h1 h2 x k : alike h1 h2 -> in_range x k h1 -> in_range x k h2.
Proof.
  intros A. destruct x as [p | l]; [auto |]. cbn.
  destruct (alike_lookup _ _ l A) as [[-> ->] | (c1 & c2 & -> & -> & C)];
    [auto |].
  destruct c1, c2; cbn in C; try contradiction; auto.
  destruct C as [L _]. intros R n E. rewrite <- L. now apply R.
Qed.

Lemma set_get_alike h x k : in_range x k h -> alike h (set h x k (get h x k)).
Proof.
  destruct x as [p | l]; [intros _; apply alike_refl |]. cbn.
  destruct (h !! l) as [[props | elems] |] eqn:E; [| | intros _; apply alike_refl].
  - intros Ik. apply (alike_insert _ _ _ _ E). cbn. intros k'.
    rewrite props_get_set by (left; now apply not_inherited_not_proto).
    destruct (String.eqb_spec k k') as [<- | _].
    + now rewrite Ik.
    + now destruct (inherited k').
  - destruct (array_index k) as [n |]; [| intros _; apply alike_refl].
    intros R. specialize (R n eq_refl).
    apply (alike_insert _ _ _ _ E). cbn. split.
    + unfold elems_set. apply Nat.ltb_lt in R. rewrite R.
      now rewrite length_insert.
    + intros m. rewrite elems_get_set.
      destruct (Nat.eqb_spec n m) as [<- | _]; reflexivity.
Qed.

Lemma in_range_object x k h :
  inherited k = false -> Array_isArray h x = false -> in_range x k h.
Proof.
  intros Ik. destruct x as [p | l]; [now intros _ |]. cbn.
  destruct (h !! l) as [[props | elems] |]; [auto | discriminate | auto].
Qed.

Lemma in_range_index x i h : i < array_length h x -> in_range x (string_of_nat i) h.
Proof.
  destruct x as [p | l]; [now intros _ |]. cbn.
  destruct (h !! l) as [[props | elems] |]; [intros L; lia | | auto].
  intros L n E. rewrite array_index_string_of_nat in E. congruence.
Qed.


(** ** Steady computations *)

Lemma steady_ret {A} P (ok : A -> Prop) a : ok a -> steady P ok (ret a).
Proof.
  intros Ha h _. split; [split; [exact Ha | apply alike_refl] | reflexivity].
Qed.

Lemma steady_throw {A} P (ok : A -> Prop) e : steady P ok (throw e).
Proof. intros h _. split; [apply alike_refl | reflexivity]. Qed.

Lemma steady_mono {A} (P Q : heap -> Prop) (ok ok' : A -> Prop) m :
  (forall h, Q h -> P h) -> (forall a, ok a -> ok' a) ->
  steady P ok m -> steady Q ok' m.
Proof.
  intros PQ OK Hm h Qh. destruct (Hm h (PQ h Qh)) as [Q1 B1].
  split; [| exact B1].
  destruct (m h); [split; [apply OK |]; apply Q1 | exact Q1 | exact I].
Qed.

Lemma steady_local {A} (P : heap -> Prop) (ok : A -> Prop) m :
  (forall h0, P h0 -> steady (alike h0) ok m) -> steady P ok m.
Proof. intros Hm h Ph. exact (Hm h Ph h (alike_refl h)). Qed.

Lemma steady_bind {A B} P (ok1 : A -> Prop) (ok2 : B -> Prop) (m : M A) k :
  (forall h1 h2, alike h1 h2 -> P h1 -> P h2) ->
  steady P ok1 m ->
  (forall a, ok1 a -> steady P ok2 (k a)) ->
  steady P ok2 (bind m k).
Proof.
  intros C Hm Hk h Ph. destruct (Hm h Ph) as [Q1 B1]. unfold bind.
  destruct (m h) as [a h' | e h' |] eqn:E.
  - destruct Q1 as [Oa A1].
    destruct (Hk a Oa h' (C _ _ A1 Ph)) as [Q2 B2]. split.
    + destruct (k a h') as [b h'' | e h'' |].
      * split; [apply Q2 | eapply alike_trans; [exact A1 | apply Q2]].
      * eapply alike_trans; [exact A1 | exact Q2].
      * exact I.
    + intros h2 A2. specialize (B1 h2 A2).
      destruct (Hm h2 (C _ _ A2 Ph)) as [Q1' _].
      destruct (m h2) as [a2 h2' | e2 h2' |]; cbn in B1; try discriminate B1.
      injection B1 as <-. destruct Q1' as [_ A1'].
      apply B2. eapply alike_trans; [apply alike_sym; exact A1 |].
      eapply alike_trans; [exact A2 | exact A1'].
  - split; [exact Q1 |]. intros h2 A2. specialize (B1 h2 A2).
    destruct (m h2); cbn in B1; try discriminate B1. cbn. congruence.
  - split; [exact I |]. intros h2 A2. specialize (B1 h2 A2).
    destruct (m h2); cbn in B1; try discriminate B1. reflexivity.
Qed.

Lemma steady_try_catch {A} P (ok : A -> Prop) (m : M A) handler :
  (forall h1 h2, alike h1 h2 -> P h1 -> P h2) ->
  steady P ok m ->
  (forall e, steady P ok (handler e)) ->
  steady P ok (try_catch m handler).
Proof.
  intros C Hm Hk h Ph. destruct (Hm h Ph) as [Q1 B1]. unfold try_catch.
  destruct (m h) as [a h' | e h' |] eqn:E.
  - split; [exact Q1 |]. intros h2 A2. specialize (B1 h2 A2).
    destruct (m h2); cbn in B1; try discriminate B1. cbn. congruence.
  - destruct (Hk e h' (C _ _ Q1 Ph)) as [Q2 B2]. split.
    + destruct (handler e h') as [b h'' | e' h'' |].
      * split; [apply Q2 | eapply alike_trans; [exact Q1 | apply Q2]].
      * eapply alike_trans; [exact Q1 | exact Q2].
      * exact I.
    + intros h2 A2. specialize (B1 h2 A2).
      destruct (Hm h2 (C _ _ A2 Ph)) as [Q1' _].
      destruct (m h2) as [a2 h2' | e2 h2' |]; cbn in B1; try discriminate B1.
      injection B1 as <-.
      apply B2. eapply alike_trans; [apply alike_sym; exact Q1 |].
      eapply alike_trans; [exact A2 | exact Q1'].
  - split; [exact I |]. intros h2 A2. specialize (B1 h2 A2).
    destruct (m h2); cbn in B1; try discriminate B1. reflexivity.
Qed.

Lemma steady_read_bind {A B} P (ok : B -> Prop) (f : heap -> A) k c :
  (forall h1 h2, alike h1 h2 -> P h1 -> P h2) ->
  (forall h, P h -> f h = c) ->
  steady P ok (k c) ->
  steady P ok (bind (read f) k).
Proof.
  intros C Hf Hk h Ph. unfold bind, read. rewrite (Hf h Ph).
  destruct (Hk h Ph) as [Q R]. split; [exact Q |].
  intros h2 A2. rewrite (Hf h2 (C _ _ A2 Ph)). now apply R.
Qed.

Lemma steady_write P (f : heap -> heap) :
  (forall h, P h -> alike h (f h)) -> steady P (fun _ => True) (write f).
Proof. intros Hf h Ph. split; [split; [exact I | now apply Hf] | reflexivity]. Qed.

Lemma steady_for_each {A} P (body : A -> M unit) items :
  (forall h1 h2, alike h1 h2 -> P h1 -> P h2) ->
  Forall (fun a => steady P (fun _ => True) (body a)) items ->
  steady P (fun _ => True) (for_each body items).
Proof.
  intros C Hb. induction Hb as [| a items Ha Hb IH]; cbn [for_each].
  - now apply steady_ret.
  - apply (steady_bind P (fun _ => True)); [exact C | exact Ha | intros _ _; exact IH].
Qed.

Lemma steady_for_each_from {A} P (body : nat -> A -> M unit) items i :
  (forall h1 h2, alike h1 h2 -> P h1 -> P h2) ->
  (forall j a, items !! j = Some a -> steady P (fun _ => True) (body (i + j) a)) ->
  steady P (fun _ => True) (for_each_from body i items).
Proof.
  intros C. revert i. induction items as [| a items IH]; intros i Hb;
    cbn [for_each_from].
  - now apply steady_ret.
  - apply (steady_bind P (fun _ => True)); [exact C | |].
    + specialize (Hb 0 a eq_refl). now rewrite Nat.add_0_r in Hb.
    + intros _ _. apply IH. intros j b E.
      replace (S i + j) with (i + S j) by lia. now apply Hb.
Qed.

Lemma steady_validate_in_place P schema x k path :
  well_behaved schema ->
  (forall h, P h -> in_range x k h) ->
  steady P (fun _ => True)
         (validate_in_place (fun xi => validate xi schema) x k path).
Proof.
  intros W R. apply steady_local. intros h0 P0.
  assert (C : forall h1 h2 : heap, alike h1 h2 -> alike h0 h1 -> alike h0 h2)
    by (intros h1 h2 A12 A01; eapply alike_trans; eassumption).
  unfold validate_in_place. apply steady_try_catch; [exact C | | intros e; apply steady_throw].
  apply (steady_read_bind _ _ _ _ (get h0 x k)); [exact C | |].
  { intros h A. symmetry. now apply alike_get. }
  apply (steady_bind _ (eq (get h0 x k))); [exact C | |].
  - eapply steady_mono; [| | apply (W (get h0 x k))]; cbv beta; auto.
  - intros v <-. apply steady_write. intros h A.
    rewrite (alike_get _ _ x k A). apply set_get_alike.
    apply (alike_in_range _ _ _ _ A). now apply R.
Qed.


(** ** Plain schemas are well behaved *)

Lemma closed_True : forall h1 h2 : heap, alike h1 h2 -> True -> True.
Proof. auto. Qed.

Lemma closed_alike h0 :
  forall h1 h2 : heap, alike h1 h2 -> alike h0 h1 -> alike h0 h2.
Proof. intros h1 h2 A12 A01. eapply alike_trans; eassumption. Qed.

Lemma steady_fail {A} P (ok : A -> Prop) message : steady P ok (fail message).
Proof. apply steady_throw. Qed.

Lemma wb_literal p : well_behaved (SLit p).
Proof.
  intros x. cbn [validate].
  destruct (strict_equals x p); [now apply steady_ret |].
  destruct p; intros h _; cbn; (split; [apply alike_refl | reflexivity]).
Qed.

Lemma steady_inspects {A} P (m : M A) :
  inspects m -> steady P (fun _ => True) m.
Proof.
  intros Hm h _. destruct (Hm h) as (a & E & Same). rewrite E. split.
  - split; [exact I | apply alike_refl].
  - intros h2 A2. now rewrite (Same h2 A2).
Qed.

Lemma wb_string regex : well_behaved (SFun (string regex)).
Proof.
  intros x. cbn [validate]. unfold string.
  destruct (match x with Str s => _ | _ => false end);
    [now apply steady_ret | apply steady_fail].
Qed.

Lemma wb_number : well_behaved (SFun number).
Proof.
  intros x. cbn [validate]. unfold number.
  destruct (Number_isFinite x); [now apply steady_ret | apply steady_fail].
Qed.

Lemma wb_integer : well_behaved (SFun integer).
Proof.
  intros x. cbn [validate]. unfold integer.
  destruct (Number_isInteger x); [now apply steady_ret | apply steady_fail].
Qed.

Lemma wb_boolean : well_behaved (SFun boolean).
Proof.
  intros x. cbn [validate]. unfold boolean.
  destruct (String.eqb (typeof x) "boolean");
    [now apply steady_ret | apply steady_fail].
Qed.

Lemma wb_any : well_behaved (SFun any).
Proof. intros x. now apply steady_ret. Qed.

Lemma wb_never : well_behaved (SFun never).
Proof. intros x. apply steady_fail. Qed.

Lemma wb_struct schema : well_behaved schema -> well_behaved (SFun (struct schema)).
Proof. intros W x. exact (W x). Qed.

Lemma wb_maybe schema : well_behaved schema -> well_behaved (SFun (maybe schema None)).
Proof.
  intros W x. cbn [validate]. unfold maybe.
  destruct (String.eqb (typeof x) "undefined") eqn:T; [| exact (W x)].
  apply steady_ret. now destruct x as [[| | | | |] |].
Qed.

Lemma wb_filter schema (keep : value -> M bool) message :
  well_behaved schema ->
  (forall x, inspects (keep x)) ->
  well_behaved (SFun (filter schema keep message)).
Proof.
  intros W K x. cbn [validate]. unfold filter, map.
  apply (steady_bind _ (eq x)); [apply closed_True | exact (W x) |].
  intros v <-.
  apply (steady_bind _ (fun _ => True));
    [apply closed_True | apply steady_inspects, K |].
  intros [|] _; [now apply steady_ret | apply steady_fail].
Qed.

Lemma shape_mismatch_false_object x h :
  shape_mismatch false 0 x h = false -> Array_isArray h x = false.
Proof.
  unfold shape_mismatch. intros E.
  apply orb_false_iff in E as [_ E]. now destruct (Array_isArray h x).
Qed.

Lemma shape_mismatch_false_array n x h :
  shape_mismatch true n x h = false -> n = array_length h x.
Proof.
  rewrite shape_mismatch_array. intros E. apply negb_false_iff in E.
  apply andb_true_iff in E as [_ E]. now apply Nat.eqb_eq in E.
Qed.

Lemma wb_object fields :
  Forall (fun f => inherited f.1 = false /\ well_behaved f.2) fields ->
  well_behaved (SObj fields).
Proof.
  intros W x. apply steady_local. intros h0 _. cbn [validate].
  apply (steady_read_bind _ _ _ _ (shape_mismatch false 0 x h0));
    [apply closed_alike | |].
  { intros h A. symmetry. now apply alike_shape_mismatch. }
  destruct (shape_mismatch false 0 x h0) eqn:S; [apply steady_fail |].
  apply (steady_bind _ (fun _ => True)); [apply closed_alike | |].
  - apply steady_for_each; [apply closed_alike |].
    eapply Forall_impl; [exact W |]. intros [i s] [Ii Ws].
    apply (steady_validate_in_place _ s x i (KStr i) Ws).
    intros h A. apply in_range_object; [exact Ii |].
    rewrite <- (alike_isArray _ _ x A). now apply shape_mismatch_false_object.
  - intros _ _. now apply steady_ret.
Qed.

Lemma wb_array_shape items :
  Forall well_behaved items -> well_behaved (SArr items).
Proof.
  intros W x. apply steady_local. intros h0 _. cbn [validate].
  apply (steady_read_bind _ _ _ _ (shape_mismatch true (length items) x h0));
    [apply closed_alike | |].
  { intros h A. symmetry. now apply alike_shape_mismatch. }
  destruct (shape_mismatch true (length items) x h0) eqn:S; [apply steady_fail |].
  apply (steady_bind _ (fun _ => True)); [apply closed_alike | |].
  - apply steady_for_each_from; [apply closed_alike |].
    intros j s E. cbn [Nat.add].
    apply (steady_validate_in_place _ s x (string_of_nat j) (KStr (string_of_nat j))).
    + rewrite Forall_forall in W. apply W. eapply list_elem_of_lookup_2, E.
    + intros h A. apply in_range_index.
      rewrite <- (alike_array_length _ _ x A),
        <- (shape_mismatch_false_array _ _ _ S).
      now apply lookup_lt_Some in E.
  - intros _ _. now apply steady_ret.
Qed.

Lemma steady_array_loop schema x h0 fuel :
  well_behaved schema ->
  forall i, steady (alike h0) (fun _ => True) (array_loop fuel schema x i).
Proof.
  intros W. induction fuel as [| fuel IH]; intros i; cbn [array_loop].
  - intros h _. split; [exact I | reflexivity].
  - apply (steady_read_bind _ _ _ _ (array_length h0 x)); [apply closed_alike | |].
    { intros h A. symmetry. now apply alike_array_length. }
    destruct (Nat.ltb_spec i (array_length h0 x)) as [L | L];
      [| now apply steady_ret].
    apply (steady_bind _ (fun _ => True)); [apply closed_alike | |].
    + apply (steady_validate_in_place _ schema x (string_of_nat i) (KNum i) W).
      intros h A. apply in_range_index.
      now rewrite <- (alike_array_length _ _ x A).
    + intros _ _. apply IH.
Qed.

Lemma wb_array fuel schema :
  well_behaved schema -> well_behaved (SFun (array fuel schema)).
Proof.
  intros W x. apply steady_local. intros h0 _. cbn [validate]. unfold array.
  apply (steady_read_bind _ _ _ _ (Array_isArray h0 x)); [apply closed_alike | |].
  { intros h A. symmetry. now apply alike_isArray. }
  destruct (Array_isArray h0 x); cbn [negb]; [| apply steady_fail].
  apply (steady_bind _ (fun _ => True)); [apply closed_alike | |].
  - now apply steady_array_loop.
  - intros _ _. now apply steady_ret.
Qed.

Lemma steady_attempt x schema :
  well_behaved schema ->
  steady (fun _ => True)
         (fun a => match a with inl v => v = x | inr _ => True end)
         (attempt x schema).
Proof.
  intros W. unfold attempt. apply steady_try_catch; [apply closed_True | |].
  - apply (steady_bind _ (eq x)); [apply closed_True | exact (W x) |].
    intros v <-. now apply steady_ret.
  - intros [info | name]; [now apply steady_ret | apply steady_throw].
Qed.

Lemma steady_anyOf_loop x schemas :
  Forall well_behaved schemas ->
  forall failures,
    steady (fun _ => True) (eq x) (anyOf_loop x schemas failures).
Proof.
  induction 1 as [| schema schemas W Ws IH]; intros failures; cbn [anyOf_loop].
  - apply steady_fail.
  - eapply steady_bind; [apply closed_True | now apply steady_attempt |].
    intros [v | info] Hv; [now apply steady_ret | apply IH].
Qed.

Lemma steady_oneOf_loop x schemas :
  Forall well_behaved schemas ->
  forall count failures,
    steady (fun _ => True) (eq x) (oneOf_loop x schemas count x failures).
Proof.
  induction 1 as [| schema schemas W Ws IH]; intros count failures;
    cbn [oneOf_loop].
  - destruct (count =? 0)%nat; [apply steady_fail | now apply steady_ret].
  - eapply steady_bind; [apply closed_True | now apply steady_attempt |].
    intros [v | info] Hv; [| apply IH].
    destruct (1 <? count + 1)%nat; [apply steady_fail |].
    subst v. apply IH.
Qed.

Lemma steady_allOf x schemas :
  Forall well_behaved schemas ->
  steady (fun _ => True) (eq x) (Array_reduce validate schemas x).
Proof.
  induction 1 as [| schema schemas W Ws IH]; cbn [Array_reduce].
  - now apply steady_ret.
  - apply (steady_bind _ (eq x)); [apply closed_True | exact (W x) |].
    intros v <-. exact IH.
Qed.

Lemma plain_well_behaved_mut literal_ok :
  (forall schema, plain_with literal_ok schema -> well_behaved schema)
  /\ (forall schemas, plain_all literal_ok schemas -> Forall well_behaved schemas)
  /\ (forall fields, plain_fields literal_ok fields ->
                     Forall (fun f => inherited f.1 = false /\ well_behaved f.2)
                            fields).
Proof.
  apply plain_mutind; intros.
  - apply wb_literal.
  - now apply wb_object.
  - now apply wb_array_shape.
  - apply wb_string.
  - apply wb_number.
  - apply wb_integer.
  - apply wb_boolean.
  - apply wb_any.
  - apply wb_never.
  - now apply wb_struct.
  - now apply wb_array.
  - now apply wb_maybe.
  - now apply wb_filter.
  - intros x. now apply steady_anyOf_loop.
  - intros x. now apply steady_oneOf_loop.
  - intros x. now apply steady_allOf.
  - constructor.
  - now constructor.
  - constructor.
  - now constructor.
Qed.

(** C4: validation need not be idempotent on a transforming schema, but
    it is on a plain one: a schema built from literals, object shapes
    whose keys are no names that [Object.prototype] defines, array shapes,
    the scalar validators (a [string(regex)] with neither the [g] nor the
    [y] flag), [struct], [array], [maybe] without a default, [filter] with
    a predicate that [inspects], [anyOf], [oneOf] and [allOf].  When
    [validate] returns on a plain schema, the value returned is the value
    it was given and the heap it leaves reads like the heap it started
    from; validating that value again, in that heap, returns the same
    value once more and again leaves a heap that reads alike. *)
Theorem plain_validate_idempotent schema v h r h' :
  plain schema ->
  validate v schema h = Return r h' ->
  r = v
  /\ alike h h'
  /\ exists h'', validate r schema h' = Return r h'' /\ alike h' h''.
Proof.
  intros Pl E.
  pose proof (proj1 (plain_well_behaved_mut _) schema Pl v) as W.
  destruct (W h I) as [Q B]. rewrite E in Q. destruct Q as [<- A].
  split; [reflexivity | split; [exact A |]].
  specialize (B h' A). rewrite E in B. cbn in B.
  destruct (W h' I) as [Q' _].
  destruct (validate v schema h') as [r' h'' | |]; cbn in B; try discriminate B.
  injection B as <-. exists h''. now split.
Qed.


(** * Further properties *)

(** ** [anyOf] and [oneOf], read backwards *)

Lemma all_fail_length x schemas h failures h' :
  all_fail x schemas h failures h' -> length failures = length schemas.
Proof. induction 1; cbn; congruence. Qed.

Lemma all_fail_app x pre post h f1 h1 f2 h2 :
  all_fail x pre h f1 h1 -> all_fail x post h1 f2 h2 ->
  all_fail x (pre ++ post) h (f1 ++ f2) h2.
Proof.
  induction 1 as [h | schema pre h info h1 f1 h1' E F IH]; intros G.
  - exact G.
  - cbn. econstructor; [exact E | now apply IH].
Qed.

Lemma attempt_cases x schema h :
  match validate x schema h with
  | Return v h' => attempt x schema h = Return (inl v) h'
  | Throw (ValidationError info) h' => attempt x schema h = Return (inr info) h'
  | Throw (OtherError name) h' => attempt x schema h = Throw (OtherError name) h'
  | Diverge => attempt x schema h = Diverge
  end.
Proof.
  unfold attempt, try_catch, bind.
  destruct (validate x schema h) as [v h' | [info | name] h' |]; reflexivity.
Qed.

Lemma anyOf_loop_Return_inv x schemas :
  forall failures h v h',
    anyOf_loop x schemas failures h = Return v h' ->
    exists pre schema post f1 h1,
      schemas = pre ++ schema :: post
      /\ all_fail x pre h f1 h1
      /\ validate x schema h1 = Return v h'.
Proof.
  induction schemas as [| schema rest IH]; intros failures h v h' E;
    cbn [anyOf_loop] in E; [discriminate E |].
  unfold bind in E. pose proof (attempt_cases x schema h) as A.
  destruct (validate x schema h) as [v0 h0 | [info | name] h0 |] eqn:V;
    rewrite A in E; try discriminate E.
  - injection E as <- <-. exists [], schema, rest, [], h.
    repeat split; [constructor | exact V].
  - destruct (IH _ _ _ _ E) as (pre & s & post & f1 & h1 & -> & F & R).
    exists (schema :: pre), s, post, (info :: f1), h1.
    repeat split; [econstructor; eassumption | exact R].
Qed.

Lemma anyOf_loop_Throw_inv x schemas :
  forall failures h info h',
    anyOf_loop x schemas failures h = Throw (ValidationError info) h' ->
    exists f1,
      info = mkInfo (Union (failures ++ f1)) [] /\ all_fail x schemas h f1 h'.
Proof.
  induction schemas as [| schema rest IH]; intros failures h info h' E;
    cbn [anyOf_loop] in E.
  - injection E as <- <-. exists []. rewrite app_nil_r. split; [reflexivity | constructor].
  - unfold bind in E. pose proof (attempt_cases x schema h) as A.
    destruct (validate x schema h) as [v0 h0 | [info0 | name] h0 |] eqn:V;
      rewrite A in E; try discriminate E.
    destruct (IH _ _ _ _ E) as (f1 & -> & F).
    exists (info0 :: f1). rewrite <- app_assoc. split; [reflexivity |].
    econstructor; eassumption.
Qed.

Lemma anyOf_loop_OtherError_inv x schemas :
  forall failures h name h',
    anyOf_loop x schemas failures h = Throw (OtherError name) h' ->
    exists pre schema post f1 h1,
      schemas = pre ++ schema :: post
      /\ all_fail x pre h f1 h1
      /\ validate x schema h1 = Throw (OtherError name) h'.
Proof.
  induction schemas as [| schema rest IH]; intros failures h name h' E;
    cbn [anyOf_loop] in E; [discriminate E |].
  unfold bind in E. pose proof (attempt_cases x schema h) as A.
  destruct (validate x schema h) as [v0 h0 | [info | name0] h0 |] eqn:V;
    rewrite A in E; try discriminate E.
  - destruct (IH _ _ _ _ E) as (pre & s & post & f1 & h1 & -> & F & R).
    exists (schema :: pre), s, post, (info :: f1), h1.
    repeat split; [econstructor; eassumption | exact R].
  - injection E as <- <-. exists [], schema, rest, [], h.
    repeat split; [constructor | exact V].
Qed.

(** X1: the outcomes of [anyOf], read backwards.  It returns [v] exactly
    when some schema returns [v] after every schema before it has failed
    validation.  The only [ValidationError] it throws itself is the
    [union] with an empty path made at the end of the loop, when every
    schema has failed validation; its [failures] are then as many as the
    schemas.  Any other exception it throws was thrown by a schema reached
    after validation failures only. *)
Theorem anyOf_outcomes (x : value) (schemas : list Schema) (h : heap) :
  (forall v h',
      anyOf schemas x h = Return v h' <->
      exists pre schema post failures h1,
        schemas = pre ++ schema :: post
        /\ all_fail x pre h failures h1
        /\ validate x schema h1 = Return v h')
  /\ (forall info h',
         anyOf schemas x h = Throw (ValidationError info) h' <->
         exists failures,
           info = mkInfo (Union failures) []
           /\ all_fail x schemas h failures h')
  /\ (forall info h',
         anyOf schemas x h = Throw (ValidationError info) h' ->
         exists failures,
           info = mkInfo (Union failures) []
           /\ length failures = length schemas)
  /\ (forall name h',
         anyOf schemas x h = Throw (OtherError name) h' ->
         exists pre schema post failures h1,
           schemas = pre ++ schema :: post
           /\ all_fail x pre h failures h1
           /\ validate x schema h1 = Throw (OtherError name) h').
Proof.
  split; [| split; [| split]].
  - intros v h'. split.
    + apply anyOf_loop_Return_inv.
    + intros (pre & schema & post & failures & h1 & -> & F & E). unfold anyOf.
      rewrite (anyOf_loop_skip _ _ _ _ _ _ _ F). cbn [anyOf_loop].
      unfold bind. now rewrite (attempt_Return _ _ _ _ _ E).
  - intros info h'. split.
    + intros E. apply anyOf_loop_Throw_inv in E as (f1 & -> & F). now exists f1.
    + intros (failures & -> & F). unfold anyOf.
      rewrite <- (app_nil_r schemas), (anyOf_loop_skip _ _ _ _ _ _ _ F).
      reflexivity.
  - intros info h' E. apply anyOf_loop_Throw_inv in E as (f1 & -> & F).
    exists f1. split; [reflexivity | exact (all_fail_length _ _ _ _ _ F)].
  - intros name h'. apply anyOf_loop_OtherError_inv.
Qed.


Lemma oneOf_loop_one_Return_inv x schemas :
  forall result failures h v h',
    oneOf_loop x schemas 1 result failures h = Return v h' ->
    v = result /\ exists f, all_fail x schemas h f h'.
Proof.
  induction schemas as [| schema rest IH]; intros result failures h v h' E;
    cbn [oneOf_loop] in E.
  - cbn in E. injection E as <- <-. split; [reflexivity |]. exists []. constructor.
  - unfold bind in E. pose proof (attempt_cases x schema h) as A.
    destruct (validate x schema h) as [v0 h0 | [info | name] h0 |] eqn:V;
      rewrite A in E; try discriminate E.
    destruct (IH _ _ _ _ _ E) as (-> & f & F).
    split; [reflexivity |]. exists (info :: f). econstructor; eassumption.
Qed.

Lemma oneOf_loop_one_Throw_inv x schemas :
  forall result failures h info h',
    oneOf_loop x schemas 1 result failures h = Throw (ValidationError info) h' ->
    info = mkInfo Unexpected []
    /\ exists mid second post f h3 v2,
        schemas = mid ++ second :: post
        /\ all_fail x mid h f h3
        /\ validate x second h3 = Return v2 h'.
Proof.
  induction schemas as [| schema rest IH]; intros result failures h info h' E;
    cbn [oneOf_loop] in E; [discriminate E |].
  unfold bind in E. pose proof (attempt_cases x schema h) as A.
  destruct (validate x schema h) as [v0 h0 | [info0 | name] h0 |] eqn:V;
    rewrite A in E; try discriminate E.
  - cbn in E. injection E as <- <-. split; [reflexivity |].
    exists [], schema, rest, [], h, v0. repeat split; [constructor | exact V].
  - destruct (IH _ _ _ _ _ E) as (-> & mid & s2 & post & f & h3 & v2 & -> & F & R).
    split; [reflexivity |].
    exists (schema :: mid), s2, post, (info0 :: f), h3, v2.
    repeat split; [econstructor; eassumption | exact R].
Qed.

Lemma oneOf_loop_zero_Return_inv x schemas :
  forall result failures h v h',
    oneOf_loop x schemas 0 result failures h = Return v h' ->
    exists pre schema post f1 h1 h2 f2,
      schemas = pre ++ schema :: post
      /\ all_fail x pre h f1 h1
      /\ validate x schema h1 = Return v h2
      /\ all_fail x post h2 f2 h'.
Proof.
  induction schemas as [| schema rest IH]; intros result failures h v h' E;
    cbn [oneOf_loop] in E; [discriminate E |].
  unfold bind in E. pose proof (attempt_cases x schema h) as A.
  destruct (validate x schema h) as [v0 h0 | [info | name] h0 |] eqn:V;
    rewrite A in E; try discriminate E.
  - cbn in E. apply oneOf_loop_one_Return_inv in E as (-> & f2 & F2).
    exists [], schema, rest, [], h, h0, f2.
    repeat split; [constructor | exact V | exact F2].
  - destruct (IH _ _ _ _ _ E) as (pre & s & post & f1 & h1 & h2 & f2 & -> & F1 & R & F2).
    exists (schema :: pre), s, post, (info :: f1), h1, h2, f2.
    repeat split; [econstructor; eassumption | exact R | exact F2].
Qed.

Lemma oneOf_loop_zero_Throw_inv x schemas :
  forall result failures h info h',
    oneOf_loop x schemas 0 result failures h = Throw (ValidationError info) h' ->
    (exists f, info = mkInfo (Union (failures ++ f)) []
               /\ all_fail x schemas h f h')
    \/ (info = mkInfo Unexpected []
        /\ exists pre first mid second post f1 h1 v1 h2 f2 h3 v2,
            schemas = pre ++ first :: mid ++ second :: post
            /\ all_fail x pre h f1 h1
            /\ validate x first h1 = Return v1 h2
            /\ all_fail x mid h2 f2 h3
            /\ validate x second h3 = Return v2 h').
Proof.
  induction schemas as [| schema rest IH]; intros result failures h info h' E;
    cbn [oneOf_loop] in E.
  - cbn in E. injection E as <- <-. left. exists []. rewrite app_nil_r.
    split; [reflexivity | constructor].
  - unfold bind in E. pose proof (attempt_cases x schema h) as A.
    destruct (validate x schema h) as [v0 h0 | [info0 | name] h0 |] eqn:V;
      rewrite A in E; try discriminate E.
    + cbn in E. right.
      apply oneOf_loop_one_Throw_inv in E
        as (-> & mid & s2 & post & f2 & h3 & v2 & -> & F2 & R2).
      split; [reflexivity |].
      exists [], schema, mid, s2, post, [], h, v0, h0, f2, h3, v2.
      repeat split; [constructor | exact V | exact F2 | exact R2].
    + destruct (IH _ _ _ _ _ E)
        as [(f & -> & F)
           | (-> & pre & s1 & mid & s2 & post & f1 & h1 & v1 & h2 & f2 & h3 & v2
              & -> & F1 & R1 & F2 & R2)].
      * left. exists (info0 :: f). rewrite <- app_assoc.
        split; [reflexivity | econstructor; eassumption].
      * right. split; [reflexivity |].
        exists (schema :: pre), s1, mid, s2, post, (info0 :: f1), h1, v1, h2,
          f2, h3, v2.
        repeat split; [econstructor; eassumption | exact R1 | exact F2 | exact R2].
Qed.

(** X2: the outcomes of [oneOf], read backwards.  It returns [v] exactly
    when one schema returns [v] and every other schema, before and after
    it, fails validation.  A [ValidationError] that it throws itself is
    either the [union] of the failures of all its schemas, or
    [unexpected]; and it is [unexpected] exactly when two schemas
    returned, with validation failures only before and between them. *)
Theorem oneOf_outcomes (x : value) (schemas : list Schema) (h : heap) :
  (forall v h',
      oneOf schemas x h = Return v h' <->
      exists pre schema post f1 h1 h2 f2,
        schemas = pre ++ schema :: post
        /\ all_fail x pre h f1 h1
        /\ validate x schema h1 = Return v h2
        /\ all_fail x post h2 f2 h')
  /\ (forall info h',
         oneOf schemas x h = Throw (ValidationError info) h' ->
         info = mkInfo Unexpected []
         \/ exists failures,
             info = mkInfo (Union failures) []
             /\ all_fail x schemas h failures h')
  /\ (forall h',
         oneOf schemas x h = Throw (ValidationError (mkInfo Unexpected [])) h' <->
         exists pre first mid second post f1 h1 v1 h2 f2 h3 v2,
           schemas = pre ++ first :: mid ++ second :: post
           /\ all_fail x pre h f1 h1
           /\ validate x first h1 = Return v1 h2
           /\ all_fail x mid h2 f2 h3
           /\ validate x second h3 = Return v2 h').
Proof.
  split; [| split].
  - intros v h'. split.
    + apply oneOf_loop_zero_Return_inv.
    + intros (pre & schema & post & f1 & h1 & h2 & f2 & -> & F1 & E & F2).
      unfold oneOf.
      rewrite (oneOf_loop_skip _ _ _ _ _ _ _ _ _ F1). cbn [oneOf_loop].
      unfold bind at 1. rewrite (attempt_Return _ _ _ _ _ E). cbn.
      rewrite <- (app_nil_r post), (oneOf_loop_skip _ _ _ _ _ _ _ _ _ F2).
      reflexivity.
  - intros info h' E.
    apply oneOf_loop_zero_Throw_inv in E as [(f & -> & F) | (-> & _)];
      [right; now exists f | now left].
  - intros h'. split.
    + intros E.
      apply oneOf_loop_zero_Throw_inv in E as [(f & E & _) | (_ & D)];
        [discriminate E | exact D].
    + intros (pre & s1 & mid & s2 & post & f1 & h1 & v1 & h2 & f2 & h3 & v2
              & -> & F1 & E1 & F2 & E2).
      unfold oneOf.
      rewrite (oneOf_loop_skip _ _ _ _ _ _ _ _ _ F1). cbn [oneOf_loop].
      unfold bind at 1. rewrite (attempt_Return _ _ _ _ _ E1). cbn.
      rewrite (oneOf_loop_skip _ _ _ _ _ _ _ _ _ F2). cbn [oneOf_loop].
      unfold bind at 1. rewrite (attempt_Return _ _ _ _ _ E2). reflexivity.
Qed.

(** X3: [oneOf] is [anyOf] with one more reason to fail.  Whatever
    [oneOf] returns, [anyOf] returns too (from the heap its first match
    left); when no schema matches, the two throw the same [union] from the
    same heap; and where [oneOf] throws [unexpected], [anyOf] returns. *)
Theorem oneOf_refines_anyOf (x : value) (schemas : list Schema) (h : heap) :
  (forall v h',
      oneOf schemas x h = Return v h' ->
      exists h'', anyOf schemas x h = Return v h'')
  /\ (forall info h',
         anyOf schemas x h = Throw (ValidationError info) h' ->
         oneOf schemas x h = Throw (ValidationError info) h')
  /\ (forall failures h',
         oneOf schemas x h
         = Throw (ValidationError (mkInfo (Union failures) [])) h' ->
         anyOf schemas x h
         = Throw (ValidationError (mkInfo (Union failures) [])) h')
  /\ (forall h',
         oneOf schemas x h = Throw (ValidationError (mkInfo Unexpected [])) h' ->
         exists v h'', anyOf schemas x h = Return v h'').
Proof.
  split; [| split; [| split]].
  - intros v h' E.
    apply oneOf_loop_zero_Return_inv in E
      as (pre & s & post & f1 & h1 & h2 & f2 & -> & F1 & R & _).
    exists h2. unfold anyOf.
    rewrite (anyOf_loop_skip _ _ _ _ _ _ _ F1). cbn [anyOf_loop].
    unfold bind. now rewrite (attempt_Return _ _ _ _ _ R).
  - intros info h' E. apply anyOf_loop_Throw_inv in E as (f & -> & F).
    unfold oneOf.
    rewrite <- (app_nil_r schemas), (oneOf_loop_skip _ _ _ _ _ _ _ _ _ F).
    reflexivity.
  - intros failures h' E.
    apply oneOf_loop_zero_Throw_inv in E as [(f & E & F) | (E & _)];
      [| discriminate E].
    cbn in E. injection E as ->. unfold anyOf.
    rewrite <- (app_nil_r schemas), (anyOf_loop_skip _ _ _ _ _ _ _ F).
    reflexivity.
  - intros h' E.
    apply oneOf_loop_zero_Throw_inv in E
      as [(f & E & _)
         | (_ & pre & s1 & mid & s2 & post & f1 & h1 & v1 & h2 & f2 & h3 & v2
            & -> & F1 & R1 & _)];
      [discriminate E |].
    exists v1, h2. unfold anyOf.
    rewrite (anyOf_loop_skip _ _ _ _ _ _ _ F1). cbn [anyOf_loop].
    unfold bind. now rewrite (attempt_Return _ _ _ _ _ R1).
Qed.


(** ** Object schemas *)

Lemma shape_mismatch_primitive is_array n p h :
  shape_mismatch is_array n (Prim p) h = true.
Proof. destruct p, is_array; reflexivity. Qed.

(** X4: the guard of an object schema.  On a primitive ([null] and
    [undefined] among them) and on an array, [validate] throws
    [expected "object"] with an empty path and leaves the heap alone, so a
    call that returns was given a reference that is no array.  The empty
    object schema returns any object untouched, and the empty array schema
    returns an empty array untouched. *)
Theorem object_schema_guard (fields : list (PropertyKey * Schema))
    (x : value) (h : heap) :
  ((exists p, x = Prim p) \/ Array_isArray h x = true ->
   validate x (SObj fields) h
   = Throw (ValidationError (mkInfo (Expected (Some "object")) [])) h)
  /\ (forall r h',
         validate x (SObj fields) h = Return r h' ->
         exists l, x = Ref l /\ Array_isArray h x = false)
  /\ (forall l props,
         h !! l = Some (CObject props) ->
         validate (Ref l) (SObj []) h = Return (Ref l) h)
  /\ (forall l,
         h !! l = Some (CArray []) ->
         validate (Ref l) (SArr []) h = Return (Ref l) h).
Proof.
  split; [| split; [| split]].
  - intros D. rewrite validate_SObj.
    replace (shape_mismatch false 0 x h) with true; [reflexivity |].
    destruct D as [[p ->] | A]; [now rewrite shape_mismatch_primitive |].
    unfold shape_mismatch. rewrite A. cbn. now rewrite !orb_true_r.
  - intros r h' E. rewrite validate_SObj in E.
    destruct (shape_mismatch false 0 x h) eqn:S; [discriminate E |].
    destruct x as [p | l]; [now rewrite shape_mismatch_primitive in S |].
    exists l. split; [reflexivity | now apply shape_mismatch_false_object].
  - intros l props E.
    now rewrite validate_SObj, (shape_mismatch_object _ _ _ E).
  - intros l E. rewrite validate_SArr, shape_mismatch_array. cbn. now rewrite E.
Qed.

Lemma set_object h l props i v :
  h !! l = Some (CObject props) ->
  set h (Ref l) i v = <[l := CObject (props_set i v props)]> h.
Proof. intros E. cbn. now rewrite E. Qed.

Lemma validate_fields_declared l fields :
  Forall (fun f => inherited f.1 = false
                   /\ forall v, keeps l (validate v f.2)) fields ->
  forall props h,
    h !! l = Some (CObject props) ->
    match validate_fields (Ref l) fields h with
    | Return _ h' =>
        exists props',
          h' !! l = Some (CObject props')
          /\ (forall k, k ∉ fields.*1 -> props_get k props' = props_get k props)
          /\ (forall i, i ∈ fields.*1 -> props_has i props' = true)
    | Throw _ h' =>
        exists props',
          h' !! l = Some (CObject props')
          /\ (forall k, k ∉ fields.*1 -> props_get k props' = props_get k props)
    | Diverge => True
    end.
Proof.
  induction 1 as [| [i s] fields [Ii Ks] _ IH]; intros props h E.
  - cbn. exists props.
    split; [exact E | split; [reflexivity | intros i Hi; inversion Hi]].
  - rewrite validate_fields_cons. unfold bind.
    cbn [fst] in Ii.
    assert (Own : i <> "__proto__" \/ props_has i props = true)
      by (left; now apply not_inherited_not_proto).
    specialize (Ks (get h (Ref l) i) h). cbn [snd] in Ks.
    destruct (validate (get h (Ref l) i) s h) as [v h1 | e h1 |] eqn:V.
    + rewrite (validate_in_place_Return _ _ _ _ _ _ _ V).
      rewrite E in Ks. rewrite (set_object _ _ _ _ _ Ks).
      assert (E1 : <[l := CObject (props_set i v props)]> h1 !! l
                   = Some (CObject (props_set i v props))).
      { apply list_lookup_insert_eq. now apply lookup_lt_Some in Ks. }
      specialize (IH _ _ E1).
      assert (other : forall k, k ∉ ((i, s) :: fields).*1 ->
                                props_get k (props_set i v props) = props_get k props).
      { intros k Hk. rewrite (props_get_set _ _ _ _ Own).
        destruct (String.eqb_spec i k) as [-> | _]; [| reflexivity].
        exfalso. apply Hk. cbn. left. }
      destruct (validate_fields (Ref l) fields _) as [[] h' | e h' |];
        [| | exact I].
      * destruct IH as (props' & E' & untouched & declared).
        exists props'. split; [exact E' | split].
        -- intros k Hk. rewrite untouched; [now apply other |].
           intros Hin. apply Hk. cbn. now right.
        -- intros k Hk. cbn in Hk. apply elem_of_cons in Hk.
           destruct (decide (k ∈ fields.*1)) as [Hin | Hout];
             [now apply declared |].
           destruct Hk as [-> | Hk]; [| contradiction].
           unfold props_has.
           rewrite (untouched _ Hout), (props_get_set _ _ _ _ Own).
           now rewrite String.eqb_refl.
      * destruct IH as (props' & E' & untouched).
        exists props'. split; [exact E' |].
        intros k Hk. rewrite untouched; [now apply other |].
        intros Hin. apply Hk. cbn. now right.
    + rewrite (validate_in_place_Throw _ _ _ _ _ _ _ V).
      rewrite E in Ks. exists props. split; [exact Ks | reflexivity].
    + now rewrite (validate_in_place_Diverge _ _ _ _ _ V).
Qed.

(** X5: an object schema is a subset constraint.  Let the input be an
    object, let the keys that the schema declares be no names that
    [Object.prototype] defines, and let no field schema touch the cell of
    the input by itself.  Then, whether [validate] returns or throws, the
    input is still an object and every property whose key the schema does
    not declare is exactly what it was; and when it returns, every
    declared key is an own property of the input, the ones that were
    missing included. *)
Theorem object_schema_declared_keys (l : loc) (props : list (PropertyKey * value))
    (fields : list (PropertyKey * Schema)) (h : heap) :
  h !! l = Some (CObject props) ->
  Forall (fun f => inherited f.1 = false) fields ->
  Forall (fun f => forall v, keeps l (validate v f.2)) fields ->
  match validate (Ref l) (SObj fields) h with
  | Return r h' =>
      r = Ref l
      /\ exists props',
          h' !! l = Some (CObject props')
          /\ (forall k, k ∉ fields.*1 -> props_get k props' = props_get k props)
          /\ (forall i, i ∈ fields.*1 -> props_has i props' = true)
  | Throw _ h' =>
      exists props',
        h' !! l = Some (CObject props')
        /\ (forall k, k ∉ fields.*1 -> props_get k props' = props_get k props)
  | Diverge => True
  end.
Proof.
  intros E Ik K. rewrite validate_SObj, (shape_mismatch_object _ _ _ E).
  unfold bind, ret.
  assert (IK : Forall (fun f : PropertyKey * Schema =>
                         inherited f.1 = false
                         /\ forall v, keeps l (validate v f.2)) fields)
    by (apply Forall_and; now split).
  pose proof (validate_fields_declared l fields IK props h E) as D.
  destruct (validate_fields (Ref l) fields h) as [[] h' | e h' |];
    [split; [reflexivity | exact D] | exact D | exact I].
Qed.

(** ** [maybe], [filter], [map] *)

(** X6: [maybe] treats [undefined], and nothing else, as absent.  On
    [undefined] it returns the default (or [undefined]) without running
    its schema and without checking the default against it; every other
    value, [null] included, goes to the schema.  Inside an object schema
    this fills a missing key in place, when the key is no name that
    [Object.prototype] defines: the input gets the property, with the
    default as its value. *)
Theorem maybe_absent (schema : Schema) (default_ : option value) :
  (forall h,
      maybe schema default_ undefined h = Return (default undefined default_) h)
  /\ (forall x h,
         x <> undefined -> maybe schema default_ x h = validate x schema h)
  /\ (forall l props i d h,
         h !! l = Some (CObject props) ->
         props_get i props = None ->
         inherited i = false ->
         validate (Ref l) (SObj [(i, SFun (maybe schema (Some d)))]) h
         = Return (Ref l) (<[l := CObject (props_set i d props)]> h)
         /\ get (<[l := CObject (props_set i d props)]> h) (Ref l) i = d).
Proof.
  split; [| split].
  - reflexivity.
  - intros x h N. unfold maybe.
    destruct x as [[| | b | n | s | z] | l]; try reflexivity. congruence.
  - intros l props i d h E G Ii. split.
    + rewrite validate_SObj, (shape_mismatch_object _ _ _ E). unfold bind at 1.
      rewrite validate_fields_cons. unfold bind at 1.
      rewrite (validate_in_place_Return _ _ _ _ _ d h).
      * now rewrite (set_object _ _ _ _ _ E).
      * cbv beta. rewrite (get_object _ _ _ _ E), G. reflexivity.
    + rewrite <- (set_object _ _ _ _ _ E).
      apply (get_set_object _ _ _ _ _ E).
      left. now apply not_inherited_not_proto.
Qed.

(** X7: [filter] never changes a value.  What it returns is what its
    schema returned, on which the predicate said yes; a failure of the
    schema is thrown on without the predicate being asked; and when the
    predicate says no it throws, with an empty path, the description it
    was given, or [custom "filter failed"] when the message is missing or
    is the empty string. *)
Theorem filter_outcomes (schema : Schema) (keep : value -> M bool)
    (message : option (String.string + ErrorDescription)) (x : value) (h : heap) :
  (forall e h',
      validate x schema h = Throw e h' ->
      filter schema keep message x h = Throw e h')
  /\ (forall v h1 h2,
         validate x schema h = Return v h1 ->
         keep v h1 = Return true h2 ->
         filter schema keep message x h = Return v h2)
  /\ (forall v h1 h2,
         validate x schema h = Return v h1 ->
         keep v h1 = Return false h2 ->
         filter schema keep message x h
         = Throw (ValidationError
                    (mkInfo (match message with
                             | Some (inl m) =>
                                 Custom (if String.eqb m "" then "filter failed"
                                         else m)
                             | Some (inr description) => description
                             | None => Custom "filter failed"
                             end) [])) h2)
  /\ (forall r h',
         filter schema keep message x h = Return r h' ->
         exists h1,
           validate x schema h = Return r h1 /\ keep r h1 = Return true h').
Proof.
  unfold filter, map, bind. split; [| split; [| split]].
  - intros e h' E. now rewrite E.
  - intros v h1 h2 E K. now rewrite E, K.
  - intros v h1 h2 E K. rewrite E, K. unfold fail, throw.
    destruct message as [[m | d] |]; [| reflexivity | reflexivity].
    destruct m as [| c m]; reflexivity.
  - intros r h' E.
    destruct (validate x schema h) as [v h1 | e h1 |]; try discriminate E.
    destruct (keep v h1) as [[|] h2 | e h2 |] eqn:K; try discriminate E.
    injection E as <- <-. now exists h1.
Qed.

(** X8: [map] composes.  Mapping with the function that returns its
    argument is the schema itself; a map of a map is the map of the two
    functions one after the other; over [any()] a map is its function; and
    when the schema does not return, the function is not run. *)
Theorem map_laws :
  (forall schema x h, map schema ret x h = validate x schema h)
  /\ (forall schema f g x h,
         map (SFun (map schema f)) g x h
         = map schema (fun v => w <- f v ;; g w) x h)
  /\ (forall f x h, map (SFun any) f x h = f x h)
  /\ (forall schema f x h e h',
         validate x schema h = Throw e h' -> map schema f x h = Throw e h').
Proof.
  split; [| split; [| split]].
  - intros schema x h. unfold map. apply bind_ret_r.
  - intros schema f g x h. unfold map. cbn [validate]. apply bind_assoc.
  - reflexivity.
  - intros schema f x h e h' E. unfold map, bind. now rewrite E.
Qed.

(** ** Nesting [allOf] and [anyOf] *)

Lemma anyOf_loop_Return_failures x schemas :
  forall failures failures' h v h',
    anyOf_loop x schemas failures h = Return v h' ->
    anyOf_loop x schemas failures' h = Return v h'.
Proof.
  induction schemas as [| schema rest IH]; intros failures failures' h v h' E;
    cbn [anyOf_loop] in *; [discriminate E |].
  unfold bind in *.
  destruct (attempt x schema h) as [[v0 | info] h0 | e h0 |];
    try discriminate E; [exact E | eapply IH, E].
Qed.

Lemma anyOf_loop_app x pre post :
  forall failures h,
    anyOf_loop x (pre ++ post) failures h
    = match anyOf_loop x pre failures h with
      | Return v h' => Return v h'
      | Throw (ValidationError (mkInfo (Union failures') [])) h' =>
          anyOf_loop x post failures' h'
      | Throw e h' => Throw e h'
      | Diverge => Diverge
      end.
Proof.
  induction pre as [| schema pre IH]; intros failures h; cbn [app anyOf_loop].
  - reflexivity.
  - unfold bind. pose proof (attempt_cases x schema h) as A.
    destruct (validate x schema h) as [v0 h0 | [info | name] h0 |];
      rewrite A; [reflexivity | apply IH | reflexivity | reflexivity].
Qed.

(** X9: [allOf] flattens.  An [allOf] of one schema is that schema; an
    [allOf] inside an [allOf] can be spliced in; and running two [allOf]s
    one after the other is the [allOf] of both lists. *)
Theorem allOf_flattens :
  (forall schema x h, allOf [schema] x h = validate x schema h)
  /\ (forall schemas rest x h,
         allOf (SFun (allOf schemas) :: rest) x h = allOf (schemas ++ rest) x h)
  /\ (forall first second x h,
         allOf [SFun (allOf first); SFun (allOf second)] x h
         = allOf (first ++ second) x h).
Proof.
  assert (splice : forall schemas rest x h,
             allOf (SFun (allOf schemas) :: rest) x h
             = allOf (schemas ++ rest) x h).
  { intros schemas rest x h. unfold allOf at 1 3.
    rewrite Array_reduce_app. reflexivity. }
  split; [| split].
  - intros schema x h. unfold allOf. cbn [Array_reduce]. apply bind_ret_r.
  - exact splice.
  - intros first second x h. rewrite splice. unfold allOf at 1 3.
    rewrite !Array_reduce_app. apply bind_ext. intros v h'.
    cbn [Array_reduce validate]. apply bind_ret_r.
Qed.


(** X10: nesting [anyOf] changes the report, not the verdict.  An [anyOf]
    (or [oneOf]) of one schema returns what the schema returns, but a
    validation failure of the schema comes out wrapped in a [union]; and
    an [anyOf] of two [anyOf]s returns exactly what the [anyOf] of both
    lists returns, from the same heap. *)
Theorem anyOf_nesting :
  (forall schema x h,
      anyOf [schema] x h
      = match validate x schema h with
        | Return v h' => Return v h'
        | Throw (ValidationError info) h' =>
            Throw (ValidationError (mkInfo (Union [info]) [])) h'
        | Throw e h' => Throw e h'
        | Diverge => Diverge
        end)
  /\ (forall schema x h, oneOf [schema] x h = anyOf [schema] x h)
  /\ (forall first second x h v h',
         anyOf [SFun (anyOf first); SFun (anyOf second)] x h = Return v h'
         <-> anyOf (first ++ second) x h = Return v h').
Proof.
  split; [| split].
  - intros schema x h. unfold anyOf. cbn [anyOf_loop]. unfold bind.
    pose proof (attempt_cases x schema h) as A.
    destruct (validate x schema h) as [v0 h0 | [info | name] h0 |];
      now rewrite A.
  - intros schema x h. unfold anyOf, oneOf. cbn [anyOf_loop oneOf_loop].
    unfold bind.
    destruct (attempt x schema h) as [[v0 | info] h0 | e h0 |]; reflexivity.
  - intros first second x h v h'.
    unfold anyOf at 1 4. rewrite anyOf_loop_app. cbn [anyOf_loop].
    unfold bind at 1.
    pose proof (attempt_cases x (SFun (anyOf first)) h) as A.
    cbn [validate] in A. unfold anyOf at 1 in A.
    destruct (anyOf_loop x first [] h) as [v0 h0 | [info | name] h0 |] eqn:L;
      rewrite A; [reflexivity | | split; discriminate | split; discriminate].
    apply anyOf_loop_Throw_inv in L as (f1 & -> & _). cbn [app].
    unfold bind at 1.
    pose proof (attempt_cases x (SFun (anyOf second)) h0) as B.
    cbn [validate] in B. unfold anyOf at 1 in B.
    destruct (anyOf_loop x second [] h0) as [v1 h1 | [info | name] h1 |] eqn:R;
      rewrite B.
    + rewrite (anyOf_loop_Return_failures _ _ _ f1 _ _ _ R). reflexivity.
    + split; [discriminate |]. intros E.
      rewrite (anyOf_loop_Return_failures _ _ _ [] _ _ _ E) in R. discriminate R.
    + split; [discriminate |]. intros E.
      rewrite (anyOf_loop_Return_failures _ _ _ [] _ _ _ E) in R. discriminate R.
    + split; [discriminate |]. intros E.
      rewrite (anyOf_loop_Return_failures _ _ _ [] _ _ _ E) in R. discriminate R.
Qed.

(** ** Exceptions that are no [ValidationError] *)

(** X11: an exception that is no [ValidationError] goes through every
    structural frame as it is.  Thrown by the schema of a field of an
    object schema, by the element schema in a turn of [array], by the
    value schema or by the key schema of [record], it comes out of that
    frame unchanged: nothing is pushed on it, and [record] does not wrap
    it as a [key] error. *)
Theorem foreign_exception_through_frames (name : PropertyKey) :
  (forall x pre i s post h h1 h2,
      shape_mismatch false 0 x h = false ->
      validate_fields x pre h = Return tt h1 ->
      validate (get h1 x i) s h1 = Throw (OtherError name) h2 ->
      validate x (SObj (pre ++ (i, s) :: post)) h = Throw (OtherError name) h2)
  /\ (forall fuel schema x i h h1,
         i < array_length h x ->
         validate (get h x (string_of_nat i)) schema h
         = Throw (OtherError name) h1 ->
         array_loop (S fuel) schema x i h = Throw (OtherError name) h1)
  /\ (forall key_schema value_schema l props h pre i post h1 h2,
         h !! l = Some (CObject props) ->
         props.*1 = pre ++ i :: post ->
         record_keys key_schema value_schema (Ref l) (Ref (length h)) pre
                     (h ++ [CObject []]) = Return tt h1 ->
         has_own h1 (Ref l) i = true ->
         validate (get h1 (Ref l) i) value_schema h1
         = Throw (OtherError name) h2 ->
         record key_schema value_schema (Ref l) h = Throw (OtherError name) h2)
  /\ (forall key_schema value_schema l props h pre i post h1 v h2 h3,
         h !! l = Some (CObject props) ->
         props.*1 = pre ++ i :: post ->
         record_keys key_schema value_schema (Ref l) (Ref (length h)) pre
                     (h ++ [CObject []]) = Return tt h1 ->
         has_own h1 (Ref l) i = true ->
         validate (get h1 (Ref l) i) value_schema h1 = Return v h2 ->
         validate (Str i) key_schema h2 = Throw (OtherError name) h3 ->
         record key_schema value_schema (Ref l) h = Throw (OtherError name) h3).
Proof.
  split; [| split; [| split]].
  - intros x pre i s post h h1 h2 Hx Hpre E.
    rewrite validate_SObj, Hx. unfold bind at 1.
    rewrite validate_fields_app. unfold bind at 1. rewrite Hpre.
    rewrite validate_fields_cons. unfold bind at 1.
    now rewrite (validate_in_place_Throw _ _ _ _ _ _ _ E).
  - intros fuel schema x i h h1 L E.
    now rewrite (array_loop_Throw _ _ _ _ _ _ _ L E).
  - intros key_schema value_schema l props h pre i post h1 h2 Hl Hk Hpre Hi E.
    rewrite (record_reaches _ _ _ _ _ _ _ _ _ Hl Hk Hpre Hi). unfold bind at 1.
    now rewrite (record_at_value_Throw _ _ _ _ _ _ _ _ E).
  - intros key_schema value_schema l props h pre i post h1 v h2 h3
           Hl Hk Hpre Hi Ev Ek.
    rewrite (record_reaches _ _ _ _ _ _ _ _ _ Hl Hk Hpre Hi). unfold bind at 1.
    now rewrite (record_at_key_Throw _ _ _ _ _ _ _ _ _ _ Ev Ek).
Qed.


(** ** [array] on schemas that only look *)

Lemma array_length_array h l elems :
  h !! l = Some (CArray elems) -> array_length h (Ref l) = length elems.
Proof. intros E. cbn. now rewrite E. Qed.

Lemma array_loop_end fuel schema l elems h :
  h !! l = Some (CArray elems) ->
  array_loop (S fuel) schema (Ref l) (length elems) h = Return tt h.
Proof.
  intros E. cbn [array_loop]. unfold bind, read.
  rewrite (array_length_array _ _ _ E), Nat.ltb_irrefl. reflexivity.
Qed.

Lemma array_loop_accepts schema accepts info l :
  decides schema accepts info ->
  forall rest done fuel h,
    h !! l = Some (CArray (done ++ rest)) ->
    length rest < fuel ->
    Forall (fun e => accepts (default undefined e) = true) rest ->
    array_loop fuel schema (Ref l) (length done) h
    = Return tt (<[l := CArray (done ++ filled rest)]> h).
Proof.
  intros D. induction rest as [| e rest IH]; intros done fuel h E L A.
  - destruct fuel as [| fuel]; [cbn in L; lia |].
    rewrite app_nil_r in E. rewrite (array_loop_end _ _ _ _ _ E).
    cbn. rewrite app_nil_r. now rewrite (list_insert_id _ _ _ E).
  - destruct fuel as [| fuel]; [cbn in L; lia |].
    inversion A as [| ? ? Ae Ar]; subst.
    assert (G : get h (Ref l) (string_of_nat (length done)) = default undefined e).
    { rewrite (get_array _ _ _ _ _ E (array_index_string_of_nat _)).
      unfold elems_get. rewrite lookup_app_r by lia.
      rewrite Nat.sub_diag. cbn. now destruct e. }
    rewrite (array_loop_Return fuel schema (Ref l) (length done) h
               (default undefined e) h).
    + rewrite (set_array _ _ _ _ _ _ E (array_index_string_of_nat _)).
      assert (Eset : elems_set (length done) (default undefined e) (done ++ e :: rest)
                  = (done ++ [Some (default undefined e)]) ++ rest).
      { unfold elems_set.
        replace (length done <? length (done ++ e :: rest))%nat with true
          by (symmetry; apply Nat.ltb_lt; rewrite length_app; cbn; lia).
        rewrite insert_app_r_alt by lia. rewrite Nat.sub_diag. cbn.
        now rewrite <- app_assoc. }
      rewrite Eset.
      replace (S (length done)) with (length (done ++ [Some (default undefined e)]))
        by (rewrite length_app; cbn; lia).
      rewrite (IH (done ++ [Some (default undefined e)]) fuel).
      * rewrite list_insert_insert_eq. cbn. now rewrite <- app_assoc.
      * apply list_lookup_insert_eq. now apply lookup_lt_Some in E.
      * cbn in L. lia.
      * exact Ar.
    + rewrite (array_length_array _ _ _ E), length_app. cbn. lia.
    + rewrite G, D, Ae. reflexivity.
Qed.

Lemma array_loop_rejects schema accepts info l :
  decides schema accepts info ->
  forall pre done e post fuel h,
    h !! l = Some (CArray (done ++ pre ++ e :: post)) ->
    length pre < fuel ->
    Forall (fun e => accepts (default undefined e) = true) pre ->
    accepts (default undefined e) = false ->
    array_loop fuel schema (Ref l) (length done) h
    = Throw (ValidationError
               (push_path (info (default undefined e))
                          (KNum (length done + length pre))))
            (<[l := CArray (done ++ filled pre ++ e :: post)]> h).
Proof.
  intros D. induction pre as [| e0 pre IH]; intros done e post fuel h E L A R.
  - destruct fuel as [| fuel]; [cbn in L; lia |]. cbn [app] in *.
    assert (G : get h (Ref l) (string_of_nat (length done)) = default undefined e).
    { rewrite (get_array _ _ _ _ _ E (array_index_string_of_nat _)).
      unfold elems_get. rewrite lookup_app_r by lia.
      rewrite Nat.sub_diag. cbn. now destruct e. }
    rewrite (array_loop_Throw fuel schema (Ref l) (length done) h
               (ValidationError (info (default undefined e))) h).
    + cbn. rewrite Nat.add_0_r. now rewrite (list_insert_id _ _ _ E).
    + rewrite (array_length_array _ _ _ E), length_app. cbn. lia.
    + rewrite G, D, R. reflexivity.
  - destruct fuel as [| fuel]; [cbn in L; lia |].
    inversion A as [| ? ? Ae Ar]; subst. cbn [app] in E.
    assert (G : get h (Ref l) (string_of_nat (length done)) = default undefined e0).
    { rewrite (get_array _ _ _ _ _ E (array_index_string_of_nat _)).
      unfold elems_get. rewrite lookup_app_r by lia.
      rewrite Nat.sub_diag. cbn. now destruct e0. }
    rewrite (array_loop_Return fuel schema (Ref l) (length done) h
               (default undefined e0) h).
    + rewrite (set_array _ _ _ _ _ _ E (array_index_string_of_nat _)).
      assert (Eset : elems_set (length done) (default undefined e0)
                            (done ++ e0 :: pre ++ e :: post)
                  = (done ++ [Some (default undefined e0)]) ++ pre ++ e :: post).
      { unfold elems_set.
        replace (length done <? length (done ++ e0 :: pre ++ e :: post))%nat
          with true
          by (symmetry; apply Nat.ltb_lt; rewrite length_app; cbn; lia).
        rewrite insert_app_r_alt by lia. rewrite Nat.sub_diag. cbn.
        now rewrite <- app_assoc. }
      rewrite Eset.
      replace (S (length done)) with (length (done ++ [Some (default undefined e0)]))
        by (rewrite length_app; cbn; lia).
      rewrite (IH (done ++ [Some (default undefined e0)]) e post fuel).
      * rewrite list_insert_insert_eq. rewrite length_app. cbn.
        rewrite <- app_assoc. cbn.
        now replace (length done + 1 + length pre)
          with (length done + S (length pre)) by lia.
      * apply list_lookup_insert_eq. now apply lookup_lt_Some in E.
      * cbn in L. lia.
      * exact Ar.
      * exact R.
    + rewrite (array_length_array _ _ _ E), length_app. cbn. lia.
    + rewrite G, D, Ae. reflexivity.
Qed.

(** X12: [array] over an element schema that only looks (it returns the
    values it accepts as they are, throws on the others and leaves the
    heap alone, as [string()] and [number()] do).  A value that is no
    array is rejected with [expected "array"].  On an array, with fuel
    for one turn more than it has elements, every element is visited in
    order, a hole counting as [undefined]: if all are accepted the array
    itself is returned, with its holes now elements that are [undefined]
    (the empty array is returned whatever the schema); otherwise the
    error of the first element that is not accepted is thrown with its
    index, as a number, pushed on the path, the holes before it are
    filled and the elements from it on are untouched. *)
Theorem array_of_looking_schema (schema : Schema) (accepts : value -> bool)
    (info : value -> ErrorInfo) (fuel : nat) (h : heap) :
  decides schema accepts info ->
  (forall x,
      Array_isArray h x = false ->
      array fuel schema x h
      = Throw (ValidationError (mkInfo (Expected (Some "array")) [])) h)
  /\ (forall l elems,
         h !! l = Some (CArray elems) ->
         length elems < fuel ->
         Forall (fun e => accepts (default undefined e) = true) elems ->
         array fuel schema (Ref l) h
         = Return (Ref l) (<[l := CArray (filled elems)]> h))
  /\ (forall l pre e post,
         h !! l = Some (CArray (pre ++ e :: post)) ->
         length (pre ++ e :: post) < fuel ->
         Forall (fun e => accepts (default undefined e) = true) pre ->
         accepts (default undefined e) = false ->
         array fuel schema (Ref l) h
         = Throw (ValidationError
                    (push_path (info (default undefined e)) (KNum (length pre))))
                 (<[l := CArray (filled pre ++ e :: post)]> h)).
Proof.
  intros D. split; [| split].
  - intros x A. now rewrite array_unfold, A.
  - intros l elems E L A. rewrite array_unfold.
    replace (Array_isArray h (Ref l)) with true by (cbn; now rewrite E).
    pose proof (array_loop_accepts _ _ _ l D elems [] fuel h E L A) as Loop.
    cbn [length app] in Loop. unfold bind. now rewrite Loop.
  - intros l pre e post E L A R. rewrite array_unfold.
    replace (Array_isArray h (Ref l)) with true by (cbn; now rewrite E).
    assert (Lpre : length pre < fuel) by (rewrite length_app in L; lia).
    pose proof (array_loop_rejects _ _ _ l D pre [] e post fuel h E Lpre A R)
      as Loop.
    cbn [length app Nat.add] in Loop. unfold bind. now rewrite Loop.
Qed.


(** ** [record] on schemas that only look *)


Lemma props_get_not_declared k (props : list (PropertyKey * value)) :
  k ∉ props.*1 -> props_get k props = None.
Proof.
  induction props as [| [k0 v0] props IH]; cbn; [reflexivity |].
  intros N. apply not_elem_of_cons in N as [N1 N2].
  destruct (String.eqb_spec k0 k) as [-> | _]; [congruence | now apply IH].
Qed.













(** ** Numbers and literals *)

Lemma SFcompare_nan_r f : SFcompare f S754_nan = None.
Proof. now destruct f. Qed.

Lemma eqb_nan_r a n : is_nan n = true -> PrimFloat.eqb a n = false.
Proof.
  unfold is_nan. intros N. apply negb_true_iff in N.
  rewrite FloatAxioms.eqb_spec in N. rewrite FloatAxioms.eqb_spec.
  unfold SFeqb in *.
  destruct (Prim2SF n) as [s | s | | s m e] eqn:P.
  - discriminate N.
  - destruct s; discriminate N.
  - now rewrite SFcompare_nan_r.
  - cbn in N.
    destruct s; rewrite Z.compare_refl, Pos.compare_cont_refl in N;
      discriminate N.
Qed.

Lemma is_finite_of_SF n :
  match Prim2SF n with
  | S754_zero _ | S754_finite _ _ _ => True
  | _ => False
  end ->
  is_finite n = true.
Proof.
  unfold is_finite, is_nan, is_infinity.
  rewrite !FloatAxioms.eqb_spec, FloatAxioms.abs_spec.
  destruct (Prim2SF n) as [s | s | | s m e]; intros F; try contradiction.
  - reflexivity.
  - unfold SFeqb. cbn.
    destruct s; rewrite Z.compare_refl, Pos.compare_cont_refl; reflexivity.
Qed.

Lemma Number_isInteger_isFinite x :
  Number_isInteger x = true -> Number_isFinite x = true.
Proof.
  destruct x as [[| | b | n | s | z] | l]; try discriminate. cbn.
  intros I. apply is_finite_of_SF.
  destruct (Prim2SF n); [exact Logic.I | discriminate | discriminate | exact Logic.I].
Qed.

(** X14: every value that [integer()] accepts, [number()] accepts: an
    integer is a finite number, so [integer()] rejects [NaN], the
    infinities and everything that is no number, and putting [number()]
    after [integer()] in an [allOf] changes nothing. *)
Theorem integer_is_number (x : value) (h : heap) :
  (forall r h', integer x h = Return r h' -> number x h = Return r h')
  /\ (forall r h',
         integer x h = Return r h' ->
         exists n, x = Num n /\ is_finite n = true /\ r = x /\ h' = h)
  /\ allOf [SFun integer; SFun number] x h = integer x h.
Proof.
  assert (both : forall r h', integer x h = Return r h' ->
                              Number_isFinite x = true /\ r = x /\ h' = h).
  { intros r h' E. unfold integer in E.
    destruct (Number_isInteger x) eqn:I; [| discriminate E].
    injection E as <- <-. split; [now apply Number_isInteger_isFinite | now split]. }
  split; [| split].
  - intros r h' E. destruct (both _ _ E) as (F & -> & ->).
    unfold number. now rewrite F.
  - intros r h' E. destruct (both _ _ E) as (F & -> & ->).
    destruct x as [[| | b | n | s | z] | l]; try discriminate F.
    exists n. now repeat split.
  - rewrite allOf_cons. cbn [validate].
    destruct (integer x h) as [r h' | e h' |]; try reflexivity.
    destruct (both _ _ eq_refl) as (F & -> & ->).
    rewrite allOf_cons. cbn [validate]. unfold number. now rewrite F.
Qed.

(** X15: a literal schema accepts by [===] and does not coerce.  It
    returns its input, untouched, when the input is strictly equal to the
    literal.  Otherwise it throws: for a literal that is no bigint,
    [expected] with the JSON text of the literal and an empty path; for a
    bigint literal the [TypeError] of [JSON.stringify], which is no
    [ValidationError].  A literal that is no number accepts that very
    primitive only, and no literal accepts an object.  A [NaN] literal
    accepts nothing, [NaN] included, and its error says [expected "null"].
    The literal [0] accepts [-0], and returns [-0]. *)
Theorem literal_schema (p : Primitive) :
  (forall x h,
      validate x (SLit p) h
      = if strict_equals x p then Return x h
        else if is_bigint p then Throw (OtherError "TypeError") h
        else Throw (ValidationError (mkInfo (Expected (JSON_stringify p)) [])) h)
  /\ (forall x,
         strict_equals x p = true -> (forall n, p <> PNumber n) -> x = Prim p)
  /\ (forall l, strict_equals (Ref l) p = false)
  /\ (forall n x h,
         p = PNumber n -> is_nan n = true ->
         validate x (SLit p) h
         = Throw (ValidationError (mkInfo (Expected (Some "null")) [])) h)
  /\ (forall z x h,
         p = PBigInt z -> x <> Prim p ->
         validate x (SLit p) h = Throw (OtherError "TypeError") h)
  /\ (forall h,
         validate (Num (-0)) (SLit (PNumber 0)) h = Return (Num (-0)) h).
Proof.
  assert (exact : forall x, strict_equals x p = true ->
                            (forall n, p <> PNumber n) -> x = Prim p).
  { intros x E N.
    destruct x as [[| | b | n | s | z] | l], p as [| | b' | n' | s' | z'];
      try discriminate E; try reflexivity.
    - cbn in E. apply Bool.eqb_prop in E. now subst.
    - now destruct (N n').
    - cbn in E. apply String.eqb_eq in E. now subst.
    - cbn in E. apply Z.eqb_eq in E. now subst. }
  split; [| split; [| split; [| split; [| split]]]].
  - intros x h. cbn [validate].
    destruct (strict_equals x p); [reflexivity |]. now destruct p.
  - exact exact.
  - intros l. now destruct p.
  - intros n x h -> N. cbn [validate].
    replace (strict_equals x (PNumber n)) with false.
    + cbn. unfold is_finite. now rewrite N.
    + destruct x as [[| | b | a | s | z] | l]; try reflexivity.
      cbn. symmetry. now apply eqb_nan_r.
  - intros z x h -> N. cbn [validate].
    destruct (strict_equals x (PBigInt z)) eqn:E; [| reflexivity].
    exfalso. apply N. apply exact; [exact E | discriminate].
  - reflexivity.
Qed.

(** ** Plain schemas, on failure and on heaps that read alike *)

Lemma orderly_ret {A} (a : A) : orderly (ret a).
Proof. now intros h. Qed.

Lemma orderly_fail {A} message : orderly (@fail A message).
Proof. now intros h. Qed.

Lemma orderly_read {A} (f : heap -> A) : orderly (read f).
Proof. now intros h. Qed.

Lemma orderly_write f : orderly (write f).
Proof. now intros h. Qed.

Lemma orderly_bind {A B} (m : M A) (k : A -> M B) :
  orderly m -> (forall a, orderly (k a)) -> orderly (bind m k).
Proof.
  intros Hm Hk h. unfold bind. specialize (Hm h).
  destruct (m h) as [a h' | e h' |]; [apply Hk | exact Hm | exact I].
Qed.

Lemma orderly_try_catch {A} (m : M A) handler :
  orderly m ->
  (forall info, orderly (handler (ValidationError info))) ->
  orderly (try_catch m handler).
Proof.
  intros Hm Hk h. unfold try_catch. specialize (Hm h).
  destruct (m h) as [a h' | [info | name] h' |];
    [exact I | apply Hk | contradiction | exact I].
Qed.

Lemma orderly_for_each {A} (body : A -> M unit) items :
  Forall (fun a => orderly (body a)) items -> orderly (for_each body items).
Proof.
  induction 1 as [| a items Ha _ IH]; cbn [for_each].
  - apply orderly_ret.
  - apply orderly_bind; [exact Ha | intros _; exact IH].
Qed.

Lemma orderly_for_each_from {A} (body : nat -> A -> M unit) items :
  Forall (fun a => forall i, orderly (body i a)) items ->
  forall i, orderly (for_each_from body i items).
Proof.
  induction 1 as [| a items Ha _ IH]; intros i; cbn [for_each_from].
  - apply orderly_ret.
  - apply orderly_bind; [apply Ha | intros _; apply IH].
Qed.

Lemma orderly_validate_in_place schema x k path :
  (forall v, orderly (validate v schema)) ->
  orderly (validate_in_place (fun xi => validate xi schema) x k path).
Proof.
  intros T. unfold validate_in_place. apply orderly_try_catch.
  - apply orderly_bind; [apply orderly_read | intros xi].
    apply orderly_bind; [apply T | intros v; apply orderly_write].
  - intros info. now intros h.
Qed.

Lemma orderly_attempt x schema :
  (forall v, orderly (validate v schema)) -> orderly (attempt x schema).
Proof.
  intros T. unfold attempt. apply orderly_try_catch.
  - apply orderly_bind; [apply T | intros v; apply orderly_ret].
  - intros info. apply orderly_ret.
Qed.

Lemma orderly_array_loop schema x fuel :
  (forall v, orderly (validate v schema)) ->
  forall i, orderly (array_loop fuel schema x i).
Proof.
  intros T. induction fuel as [| fuel IH]; intros i; cbn [array_loop].
  - now intros h.
  - apply orderly_bind; [apply orderly_read | intros len].
    destruct (i <? len)%nat; [| apply orderly_ret].
    apply orderly_bind; [now apply orderly_validate_in_place | intros _; apply IH].
Qed.

Lemma orderly_inspects {A} (m : M A) : inspects m -> orderly m.
Proof. intros Hm h. destruct (Hm h) as (a & -> & _). exact I. Qed.

Lemma plain_orderly_mut :
  (forall schema, plain_unless_bigint schema ->
                  forall x, orderly (validate x schema))
  /\ (forall schemas, plain_all (fun p => negb (is_bigint p)) schemas ->
                      Forall (fun s => forall x, orderly (validate x s)) schemas)
  /\ (forall fields, plain_fields (fun p => negb (is_bigint p)) fields ->
                     Forall (fun f => forall x, orderly (validate x f.2)) fields).
Proof.
  apply plain_mutind.
  - intros p Np x. cbn [validate].
    destruct (strict_equals x p); [apply orderly_ret |].
    destruct p; try discriminate Np; now intros h.
  - intros fields _ T x. cbn [validate].
    apply orderly_bind; [apply orderly_read | intros [|]; [apply orderly_fail |]].
    apply orderly_bind; [| intros _; apply orderly_ret].
    apply orderly_for_each. eapply Forall_impl; [exact T |].
    intros [i s] Ts. now apply orderly_validate_in_place.
  - intros items _ T x. cbn [validate].
    apply orderly_bind; [apply orderly_read | intros [|]; [apply orderly_fail |]].
    apply orderly_bind; [| intros _; apply orderly_ret].
    apply orderly_for_each_from. eapply Forall_impl; [exact T |].
    intros s Ts i. now apply orderly_validate_in_place.
  - intros regex _ x. cbn [validate]. unfold string.
    destruct (match x with Str s => _ | _ => false end);
      [apply orderly_ret | apply orderly_fail].
  - intros x. cbn [validate]. unfold number.
    destruct (Number_isFinite x); [apply orderly_ret | apply orderly_fail].
  - intros x. cbn [validate]. unfold integer.
    destruct (Number_isInteger x); [apply orderly_ret | apply orderly_fail].
  - intros x. cbn [validate]. unfold boolean.
    destruct (String.eqb (typeof x) "boolean");
      [apply orderly_ret | apply orderly_fail].
  - intros x. apply orderly_ret.
  - intros x. apply orderly_fail.
  - intros schema _ T x. exact (T x).
  - intros fuel schema _ T x. cbn [validate]. unfold array.
    apply orderly_bind; [apply orderly_read | intros [|]; cbn [negb]];
      [| apply orderly_fail].
    apply orderly_bind; [now apply orderly_array_loop | intros _; apply orderly_ret].
  - intros schema _ T x. cbn [validate]. unfold maybe.
    destruct (String.eqb (typeof x) "undefined"); [apply orderly_ret | apply T].
  - intros schema keep message _ T K x. cbn [validate]. unfold filter, map.
    apply orderly_bind; [apply T | intros v].
    apply orderly_bind; [apply orderly_inspects, K | intros [|]];
      [apply orderly_ret | apply orderly_fail].
  - intros schemas _ T x. cbn [validate]. unfold anyOf.
    generalize (@nil ErrorInfo).
    induction T as [| schema schemas Ts _ IH]; intros failures; cbn [anyOf_loop].
    + apply orderly_fail.
    + apply orderly_bind; [now apply orderly_attempt |].
      intros [v | info]; [apply orderly_ret | apply IH].
  - intros schemas _ T x. cbn [validate]. unfold oneOf.
    enough (G : forall count result failures,
               orderly (oneOf_loop x schemas count result failures))
      by apply G.
    induction T as [| schema schemas Ts _ IH]; intros count result failures;
      cbn [oneOf_loop].
    + destruct (count =? 0)%nat; [apply orderly_fail | apply orderly_ret].
    + apply orderly_bind; [now apply orderly_attempt |].
      intros [v | info]; [| apply IH].
      destruct (1 <? count + 1)%nat; [apply orderly_fail | apply IH].
  - intros schemas _ T x. cbn [validate]. unfold allOf. revert x.
    induction T as [| schema schemas Ts _ IH]; intros x; cbn [Array_reduce].
    + apply orderly_ret.
    + apply orderly_bind; [apply Ts | exact IH].
  - constructor.
  - intros schema schemas _ T _ Ts. now constructor.
  - constructor.
  - intros i schema fields _ _ T _ Ts. now constructor.
Qed.

(** X16: a plain schema fails cleanly.  On the objects and arrays of
    this model (ordinary, extensible, with writable data properties),
    whatever [validate] throws on a plain schema that has no bigint
    literal is a [ValidationError]; and on any plain schema, the heap
    that a throw leaves reads like the heap the call started from: every
    property and every element reads as before, and no array has changed
    its length. *)
Theorem plain_failure_leaves_input (schema : Schema) (v : value) (h : heap)
    (e : exn) (h' : heap) :
  plain schema ->
  validate v schema h = Throw e h' ->
  (plain_unless_bigint schema -> exists info, e = ValidationError info)
  /\ alike h h'
  /\ (forall x k, get h' x k = get h x k)
  /\ (forall x, array_length h' x = array_length h x).
Proof.
  intros Pl E.
  pose proof (proj1 (plain_well_behaved_mut _) schema Pl v h Logic.I) as [Q _].
  rewrite E in Q.
  split; [| split; [exact Q | split]].
  - intros Pb. pose proof (proj1 plain_orderly_mut schema Pb v h) as O.
    rewrite E in O.
    destruct e as [info | name]; [now exists info | contradiction].
  - intros x k. symmetry. now apply alike_get.
  - intros x. symmetry. now apply alike_array_length.
Qed.

(** X17: a plain schema cannot tell a missing property from one that
    holds [undefined], nor a hole from an element that is [undefined],
    under any name that [Object.prototype] does not define.  From two
    heaps that read alike, [validate] on a plain schema returns the same
    value or throws the same exception. *)
Theorem plain_validate_reads_only (schema : Schema) (x : value) (h1 h2 : heap) :
  plain schema ->
  alike h1 h2 ->
  result_of (validate x schema h1) = result_of (validate x schema h2).
Proof.
  intros Pl A.
  exact (proj2 (proj1 (plain_well_behaved_mut _) schema Pl x h1 Logic.I) h2 A).
Qed.

(** ** The constant validators and the scalars *)

(** X18: [any()] and [never()] are the neutral and the absorbing schemas.
    In an [allOf], [any()] can be dropped at either end, and an [allOf]
    with [never()] in it never returns.  In an [anyOf], [never()] can be
    dropped wherever it stands without changing what is returned.  With
    no schema at all, [allOf] returns its input and [anyOf] and [oneOf]
    throw an empty [union]. *)
Theorem any_never_units (x : value) (h : heap) :
  (forall schemas, allOf (SFun any :: schemas) x h = allOf schemas x h)
  /\ (forall schemas, allOf (schemas ++ [SFun any]) x h = allOf schemas x h)
  /\ (forall pre post v h',
         allOf (pre ++ SFun never :: post) x h <> Return v h')
  /\ (forall pre post v h',
         anyOf (pre ++ SFun never :: post) x h = Return v h'
         <-> anyOf (pre ++ post) x h = Return v h')
  /\ allOf [] x h = Return x h
  /\ anyOf [] x h = Throw (ValidationError (mkInfo (Union []) [])) h
  /\ oneOf [] x h = Throw (ValidationError (mkInfo (Union []) [])) h.
Proof.
  split; [| split; [| split; [| split; [| now repeat split]]]].
  - reflexivity.
  - intros schemas. unfold allOf. rewrite Array_reduce_app.
    unfold bind. now destruct (Array_reduce validate schemas x h).
  - intros pre post v h'. unfold allOf. rewrite Array_reduce_app.
    unfold bind. now destruct (Array_reduce validate pre x h).
  - intros pre post v h'. unfold anyOf. rewrite !anyOf_loop_app.
    destruct (anyOf_loop x pre [] h) as [v0 h0 | [[d path] | name] h0 |];
      try reflexivity.
    destruct d as [e | failures | k | m |]; try reflexivity.
    destruct path; [| reflexivity].
    cbn [anyOf_loop]. unfold bind.
    rewrite (attempt_ValidationError x (SFun never) h0
               (mkInfo (Expected (Some "never")) []) h0 eq_refl).
    split; apply anyOf_loop_Return_failures.
Qed.

(** X19: the scalar validators sort values by type and coerce nothing.
    [string()] returns on the strings, [string(regex)] on the strings the
    expression matches, [boolean()] on [true] and [false], [number()] on
    the numbers that are finite; each returns its input itself and leaves
    the heap alone.  No value is accepted by two of them, so [oneOf] over
    the three never throws [unexpected]: it is [anyOf] over them. *)
Theorem scalars_sort_by_type (x : value) (h : heap) :
  (forall regex r h',
      string regex x h = Return r h' <->
      exists s,
        x = Str s
        /\ match regex with Some re => RegExp_test re s = true | None => True end
        /\ r = x /\ h' = h)
  /\ (forall r h',
         boolean x h = Return r h' <-> exists b, x = Bool b /\ r = x /\ h' = h)
  /\ (forall r h',
         number x h = Return r h' <->
         exists n, x = Num n /\ is_finite n = true /\ r = x /\ h' = h)
  /\ (forall regex,
         oneOf [SFun (string regex); SFun number; SFun boolean] x h
         = anyOf [SFun (string regex); SFun number; SFun boolean] x h).
Proof.
  split; [| split; [| split]].
  - intros regex r h'. unfold string. split.
    + destruct x as [[| | b | n | s | z] | l]; try discriminate.
      destruct regex as [re |].
      * destruct (RegExp_test re s) eqn:T; [| discriminate].
        intros E. injection E as <- <-. now exists s.
      * intros E. injection E as <- <-. now exists s.
    + intros (s & -> & T & -> & ->).
      destruct regex as [re |]; [now rewrite T | reflexivity].
  - intros r h'. unfold boolean. split.
    + destruct x as [[| | b | n | s | z] | l]; try discriminate.
      intros E. injection E as <- <-. now exists b.
    + now intros (b & -> & -> & ->).
  - intros r h'. unfold number. split.
    + destruct x as [[| | b | n | s | z] | l]; try discriminate. cbn.
      destruct (is_finite n) eqn:F; [| discriminate].
      intros E. exists n.
      assert (r = Num n /\ h' = h) as [-> ->] by (now inversion E).
      now repeat split.
    + intros (n & -> & F & -> & ->). cbn. now rewrite F.
  - intros regex.
    destruct x as [[| | b | n | s | z] | l]; reflexivity.
Qed.

End properties.

(** * Instances on closed inputs *)

#[local] Existing Instance example_engine.

(** [anyOf("a", number(), stuck)] returns [1] on [1] without reaching its
    third schema; of two schemas that accept ["a"] and turn it into [1]
    and into [2], the first decides; [anyOf("a", string())] collects both
    failures on [1]. *)
Lemma anyOf_first_match_witness :
  anyOf [SLit (PString "a"); SFun number; SFun stuck] (Num 1) []
  = Return (Num 1) []
  /\ anyOf [SFun (map (SLit (PString "a")) (fun _ => ret (Num 1)));
            SFun (map (SLit (PString "a")) (fun _ => ret (Num 2)))] (Str "a") []
     = Return (Num 1) []
  /\ anyOf [SLit (PString "a"); SFun (string None)] (Num 1) []
     = Throw (ValidationError
                (mkInfo (Union [mkInfo (Expected (JSON_stringify (PString "a"))) [];
                                mkInfo (Expected (Some "string")) []]) [])) [].
Proof.
  destruct (anyOf_first_match (Num 1)) as (first & _ & none).
  destruct (anyOf_first_match (Str "a")) as (_ & both & _).
  split; [| split].
  - apply (first [SLit (PString "a")] (SFun number) [SFun stuck] []
                 [mkInfo (Expected (JSON_stringify (PString "a"))) []] []).
    + eapply all_fail_cons; [reflexivity | apply all_fail_nil].
    + reflexivity.
  - apply both. reflexivity.
  - apply none.
    eapply all_fail_cons; [reflexivity |].
    eapply all_fail_cons; [reflexivity | apply all_fail_nil].
Defined.

(** [oneOf("a", number(), "b")] returns [1] on [1]; [oneOf("a")] fails on
    it with a [union]; [oneOf(number(), "a", any(), stuck)] fails on it as
    [unexpected] without reaching its fourth schema. *)
Lemma oneOf_exactly_one_witness :
  oneOf [SLit (PString "a"); SFun number; SLit (PString "b")] (Num 1) []
  = Return (Num 1) []
  /\ oneOf [SLit (PString "a")] (Num 1) []
     = Throw (ValidationError
                (mkInfo (Union [mkInfo (Expected (JSON_stringify (PString "a"))) []])
                        [])) []
  /\ oneOf [SFun number; SLit (PString "a"); SFun any; SFun stuck] (Num 1) []
     = Throw (ValidationError (mkInfo Unexpected [])) [].
Proof.
  destruct (oneOf_exactly_one (Num 1)) as (one & none & two & _).
  split; [| split].
  - apply (one [SLit (PString "a")] (SFun number) [SLit (PString "b")] []
               [mkInfo (Expected (JSON_stringify (PString "a"))) []] []
               (Num 1) []
               [mkInfo (Expected (JSON_stringify (PString "b"))) []] []).
    + eapply all_fail_cons; [reflexivity | apply all_fail_nil].
    + reflexivity.
    + eapply all_fail_cons; [reflexivity | apply all_fail_nil].
  - apply none. eapply all_fail_cons; [reflexivity | apply all_fail_nil].
  - apply (two [] (SFun number) [SLit (PString "a")] (SFun any) [SFun stuck] []
               [] [] (Num 1) []
               [mkInfo (Expected (JSON_stringify (PString "a"))) []] []
               (Num 1) []).
    + apply all_fail_nil.
    + reflexivity.
    + eapply all_fail_cons; [reflexivity | apply all_fail_nil].
    + reflexivity.
Defined.

(** A [TypeError] from the second alternative comes out of [anyOf] and
    [oneOf], before and after a success, with [stuck] never reached. *)
Lemma anyOf_oneOf_foreign_exception_witness :
  anyOf [SLit (PString "a"); SFun (crash "TypeError"); SFun stuck] (Num 1) []
  = Throw (OtherError "TypeError") []
  /\ oneOf [SLit (PString "a"); SFun (crash "TypeError"); SFun stuck] (Num 1) []
     = Throw (OtherError "TypeError") []
  /\ oneOf [SFun number; SFun (crash "TypeError"); SFun stuck] (Num 1) []
     = Throw (OtherError "TypeError") [].
Proof.
  destruct (anyOf_oneOf_foreign_exception (Num 1)) as (any_ & one0 & one1).
  split; [| split].
  - apply (any_ [SLit (PString "a")] (SFun (crash "TypeError")) [SFun stuck] []
                [mkInfo (Expected (JSON_stringify (PString "a"))) []] []).
    + eapply all_fail_cons; [reflexivity | apply all_fail_nil].
    + reflexivity.
  - apply (one0 [SLit (PString "a")] (SFun (crash "TypeError")) [SFun stuck] []
                [mkInfo (Expected (JSON_stringify (PString "a"))) []] []).
    + eapply all_fail_cons; [reflexivity | apply all_fail_nil].
    + reflexivity.
  - apply (one1 [] (SFun number) [] (SFun (crash "TypeError")) [SFun stuck] []
                [] [] (Num 1) [] [] []).
    + apply all_fail_nil.
    + reflexivity.
    + apply all_fail_nil.
    + reflexivity.
Defined.

(** The input [{a: {b: "x"}}], alone in the heap. *)
Lemma nested_failure_path_witness :
  validate (Ref 0) (SObj [("a", SObj [("b", SFun number)])])
           [CObject [("a", Ref 1)]; CObject [("b", Str "x")]]
  = Throw (ValidationError
             (mkInfo (Expected (Some "finite number")) [KStr "b"; KStr "a"]))
          [CObject [("a", Ref 1)]; CObject [("b", Str "x")]].
Proof.
  destruct nested_failure_path as (_ & example & _).
  apply (example 0 1 [CObject [("a", Ref 1)]; CObject [("b", Str "x")]]);
    reflexivity.
Defined.

(** The arrays [[0, "", 0]] and [[0, ""]] against [[number(), string()]],
    and the string ["0"] against it. *)
Lemma array_schema_arity_witness :
  let h := [CArray [Some (Num 0); Some (Str ""); Some (Num 0)];
            CArray [Some (Num 0); Some (Str "")]] in
  validate (Ref 0) (SArr [SFun number; SFun (string None)]) h
  = Throw (ValidationError (mkInfo (Expected (Some "array[2]")) [])) h
  /\ validate (Ref 1) (SArr [SFun number; SFun (string None)]) h
     = Return (Ref 1) h
  /\ validate (Str "0") (SArr [SFun number; SFun (string None)]) h
     = Throw (ValidationError (mkInfo (Expected (Some "array[2]")) [])) h.
Proof.
  intros h. split; [| split].
  - destruct (array_schema_arity [SFun number; SFun (string None)] (Ref 0) h)
      as (reject & _).
    apply reject. right. cbn. lia.
  - destruct (array_schema_arity [SFun number; SFun (string None)] (Ref 1) h)
      as (_ & _ & _ & accept).
    apply accept. reflexivity.
  - destruct (array_schema_arity [SFun number; SFun (string None)] (Str "0") h)
      as (reject & _).
    apply reject. left. reflexivity.
Defined.

(** The intersection of the example on ["a"] and on ["b"]. *)
Lemma allOf_left_fold_witness :
  let narrowed :=
    allOf [SFun (anyOf [SLit (PString "a"); SLit (PString "b"); SLit (PString "c")]);
           SFun (anyOf [SLit (PString "a"); SLit (PString "c"); SLit (PString "d")])] in
  (Str "a" = Str "a" \/ Str "a" = Str "c")
  /\ exists info, narrowed (Str "b") [] = Throw (ValidationError info) [].
Proof.
  intros narrowed.
  destruct allOf_left_fold as (_ & _ & _ & _ & example).
  destruct (example []) as (ret_a & _ & only & rejects). split.
  - apply (only (Str "a") (Str "a") []). exact ret_a.
  - apply rejects. left. reflexivity.
Defined.

(** [map(number(), x => 2 * x)], the example in the documentation of
    [map], accepts [6] and returns [12]; validating [12] again returns
    [24].  So validation is not idempotent on every schema. *)
Lemma map_validate_not_idempotent :
  validate (Num 6) (SFun (map (SFun number) double)) [] = Return (Num 12) []
  /\ validate (Num 12) (SFun (map (SFun number) double)) [] = Return (Num 24) []
  /\ ~ (forall schema v h r h',
           validate v schema h = Return r h' ->
           exists h'', validate r schema h' = Return r h'').
Proof.
  split; [reflexivity | split; [reflexivity |]].
  intros idem.
  destruct (idem (SFun (map (SFun number) double)) (Num 6) [] (Num 12) [] eq_refl)
    as [h'' E].
  apply (f_equal (fun o => match o with
                           | Return (Num n) _ => PrimFloat.eqb n 12
                           | _ => true
                           end)) in E.
  vm_compute in E. discriminate E.
Qed.

(** [allOf(filter(any(), x => !("b" in x)), {b: maybe(number())})] accepts
    [{}] and gives it a property [b]; it then rejects its own output. *)
Example lacks_b_not_idempotent :
  let schema :=
    SFun (allOf [SFun (filter (SFun any) lacks_b None);
                 SObj [("b", SFun (maybe (SFun number) None))]]) in
  validate (Ref 0) schema [CObject []] = Return (Ref 0) [CObject [("b", undefined)]]
  /\ validate (Ref 0) schema [CObject [("b", undefined)]]
     = Throw (ValidationError (mkInfo (Custom "filter failed") []))
             [CObject [("b", undefined)]].
Proof. split; reflexivity. Qed.

Lemma inspects_positive_a x : inspects (positive_a x).
Proof.
  intros h. eexists. split; [reflexivity |].
  intros h2 A. unfold positive_a, read. now rewrite (alike_get _ _ x "a" A).
Qed.

(** [allOf(filter(any(), x => x.a > 0),
          {a: number(), b: anyOf("x", undefined), c: maybe(string(/^a/))})]
    on [{a: 1}]: the object comes back, with properties [b] and [c] that
    hold [undefined]. *)
Lemma plain_validate_idempotent_witness :
  let schema :=
    SFun (allOf [SFun (filter (SFun any) positive_a None);
                 SObj [("a", SFun number);
                       ("b", SFun (anyOf [SLit (PString "x"); SLit PUndefined]));
                       ("c", SFun (maybe (SFun (string (Some starts_with_a)))
                                         None))]]) in
  let h' := [CObject [("a", Num 1); ("b", undefined); ("c", undefined)]] in
  Ref 0 = Ref 0
  /\ alike [CObject [("a", Num 1)]] h'
  /\ exists h'', validate (Ref 0) schema h' = Return (Ref 0) h'' /\ alike h' h''.
Proof.
  intros schema h'.
  apply (plain_validate_idempotent schema (Ref 0) [CObject [("a", Num 1)]]
           (Ref 0) h').
  - apply plain_allOf. constructor; [| constructor; [| constructor]].
    + apply plain_filter; [apply plain_any | apply inspects_positive_a].
    + repeat constructor.
  - reflexivity.
Defined.

Lemma keeps_number l v : keeps l (validate v (SFun number)).
Proof. intros h. cbn. unfold number. now destruct (Number_isFinite v). Qed.




(** [record(string(), number())] on [{a: 1, b: "x"}] fails at the value
    of [b], after [a] has gone through; [record(number(), any())] on it
    fails at the key [a], which is no number. *)
Lemma record_value_before_key_witness :
  let h := [CObject [("a", Num 1); ("b", Str "x")]] in
  record (SFun (string None)) (SFun number) (Ref 0) h
  = Throw (ValidationError (mkInfo (Expected (Some "finite number")) [KStr "b"]))
          [CObject [("a", Num 1); ("b", Str "x")]; CObject [("a", Num 1)]]
  /\ record (SFun number) (SFun any) (Ref 0) h
     = Throw (ValidationError
                (mkInfo (Key (mkInfo (Expected (Some "finite number")) []))
                        [KStr "a"]))
             [CObject [("a", Num 1); ("b", Str "x")]; CObject []].
Proof.
  intros h. split.
  - apply (proj1 (record_value_before_key (SFun (string None)) (SFun number) 0
                    [("a", Num 1); ("b", Str "x")] h ["a"] "b" []
                    [CObject [("a", Num 1); ("b", Str "x")];
                     CObject [("a", Num 1)]]
                    eq_refl eq_refl eq_refl eq_refl)
                 (mkInfo (Expected (Some "finite number")) [])
                 [CObject [("a", Num 1); ("b", Str "x")];
                  CObject [("a", Num 1)]]).
    reflexivity.
  - apply (proj2 (record_value_before_key (SFun number) (SFun any) 0
                    [("a", Num 1); ("b", Str "x")] h [] "a" ["b"]
                    [CObject [("a", Num 1); ("b", Str "x")]; CObject []]
                    eq_refl eq_refl eq_refl eq_refl)
                 (Num 1) [CObject [("a", Num 1); ("b", Str "x")]; CObject []]
                 (mkInfo (Expected (Some "finite number")) [])
                 [CObject [("a", Num 1); ("b", Str "x")]; CObject []]);
      reflexivity.
Defined.

(** The object and the array of the examples, through the general
    statements: the earlier field, already transformed, is in the heap the
    failure leaves. *)
Lemma failure_is_not_atomic_witness :
  validate (Ref 0)
           (SObj ([("a", SFun (map (SFun boolean) negation))]
                  ++ ("b", SFun number) :: []))
           [CObject [("a", Bool true); ("b", Str "x")]]
  = Throw (pushed (ValidationError (mkInfo (Expected (Some "finite number")) []))
                  (KStr "b"))
          [CObject [("a", Bool false); ("b", Str "x")]]
  /\ array_loop 2 (SFun (map (SFun boolean) negation)) (Ref 0) 0
                [CArray [Some (Bool true); Some (Num 5)]]
     = array_loop 1 (SFun (map (SFun boolean) negation)) (Ref 0) 1
                  [CArray [Some (Bool false); Some (Num 5)]]
  /\ array_loop 1 (SFun (map (SFun boolean) negation)) (Ref 0) 1
                [CArray [Some (Bool false); Some (Num 5)]]
     = Throw (pushed (ValidationError (mkInfo (Expected (Some "boolean")) []))
                     (KNum 1))
             [CArray [Some (Bool false); Some (Num 5)]].
Proof.
  destruct failure_is_not_atomic as (object & _ & _ & _ & turn & stop & _).
  split; [| split].
  - apply (object (Ref 0) [("a", SFun (map (SFun boolean) negation))] "b"
                  (SFun number) [] [CObject [("a", Bool true); ("b", Str "x")]]
                  [CObject [("a", Bool false); ("b", Str "x")]]);
      reflexivity.
  - apply (turn 1 (SFun (map (SFun boolean) negation)) (Ref 0) 0
                [CArray [Some (Bool true); Some (Num 5)]] (Bool false)
                [CArray [Some (Bool true); Some (Num 5)]]);
      [cbn; lia | reflexivity].
  - apply (stop 0 (SFun (map (SFun boolean) negation)) (Ref 0) 1
                [CArray [Some (Bool false); Some (Num 5)]]);
      [cbn; lia | reflexivity].
Defined.

(** ** Instances of the further properties *)


(** [number()] only looks. *)
Lemma decides_number :
  decides (SFun number) Number_isFinite
          (fun _ => mkInfo (Expected (Some "finite number")) []).
Proof. intros v h. cbn. unfold number. now destruct (Number_isFinite v). Qed.

(** [anyOf("a", number(), stuck)] on [1], and the two failures of
    [anyOf("a", string())] on it. *)
Lemma anyOf_outcomes_witness :
  anyOf [SLit (PString "a"); SFun number; SFun stuck] (Num 1) []
  = Return (Num 1) []
  /\ exists failures,
      mkInfo (Union [mkInfo (Expected (JSON_stringify (PString "a"))) [];
                     mkInfo (Expected (Some "string")) []]) []
      = mkInfo (Union failures) []
      /\ length failures = 2.
Proof.
  split.
  - apply (proj1 (anyOf_outcomes (Num 1)
                    [SLit (PString "a"); SFun number; SFun stuck] [])).
    exists [SLit (PString "a")], (SFun number), [SFun stuck],
      [mkInfo (Expected (JSON_stringify (PString "a"))) []], [].
    split; [reflexivity | split; [| reflexivity]].
    eapply all_fail_cons; [reflexivity | apply all_fail_nil].
  - apply (proj1 (proj2 (proj2 (anyOf_outcomes (Num 1)
                    [SLit (PString "a"); SFun (string None)] []))) _ []).
    reflexivity.
Defined.

(** [oneOf("a", number(), "b")] on [1], and the two matches of
    [oneOf(number(), any())] on it. *)
Lemma oneOf_outcomes_witness :
  oneOf [SLit (PString "a"); SFun number; SLit (PString "b")] (Num 1) []
  = Return (Num 1) []
  /\ exists pre first mid second post f1 h1 v1 h2 f2 h3 v2,
      [SFun number; SFun any] = pre ++ first :: mid ++ second :: post
      /\ all_fail (Num 1) pre [] f1 h1
      /\ validate (Num 1) first h1 = Return v1 h2
      /\ all_fail (Num 1) mid h2 f2 h3
      /\ validate (Num 1) second h3 = Return v2 [].
Proof.
  split.
  - apply (proj1 (oneOf_outcomes (Num 1)
                    [SLit (PString "a"); SFun number; SLit (PString "b")] [])).
    exists [SLit (PString "a")], (SFun number), [SLit (PString "b")],
      [mkInfo (Expected (JSON_stringify (PString "a"))) []], [], [],
      [mkInfo (Expected (JSON_stringify (PString "b"))) []].
    split; [reflexivity | split; [| split; [reflexivity |]]].
    + eapply all_fail_cons; [reflexivity | apply all_fail_nil].
    + eapply all_fail_cons; [reflexivity | apply all_fail_nil].
  - apply (proj2 (proj2 (oneOf_outcomes (Num 1) [SFun number; SFun any] []))).
    reflexivity.
Defined.

(** [oneOf("a", number())] and [oneOf(number(), any())] on [1]. *)
Lemma oneOf_refines_anyOf_witness :
  (exists h', anyOf [SLit (PString "a"); SFun number] (Num 1) []
              = Return (Num 1) h')
  /\ exists v h', anyOf [SFun number; SFun any] (Num 1) [] = Return v h'.
Proof.
  split.
  - apply (proj1 (oneOf_refines_anyOf (Num 1)
                    [SLit (PString "a"); SFun number] []) _ []).
    reflexivity.
  - apply (proj2 (proj2 (proj2 (oneOf_refines_anyOf (Num 1)
                    [SFun number; SFun any] []))) []).
    reflexivity.
Defined.

(** [{a: number()}] on [1] and on the array [[0, ""]]. *)
Lemma object_schema_guard_witness :
  validate (Num 1) (SObj [("a", SFun number)]) test_heap
  = Throw (ValidationError (mkInfo (Expected (Some "object")) [])) test_heap
  /\ validate (Ref 0) (SObj [("a", SFun number)]) test_heap
     = Throw (ValidationError (mkInfo (Expected (Some "object")) [])) test_heap.
Proof.
  split.
  - apply (proj1 (object_schema_guard [("a", SFun number)] (Num 1) test_heap)).
    left. now exists (PNumber 1).
  - apply (proj1 (object_schema_guard [("a", SFun number)] (Ref 0) test_heap)).
    right. reflexivity.
Defined.

(** [{a: number()}] on [{a: 1, z: "s"}], which it accepts, and on
    [{z: "s"}], which it rejects. *)
Lemma object_schema_declared_keys_witness :
  (exists props',
      [CObject [("a", Num 1); ("z", Str "s")]] !! 0 = Some (CObject props')
      /\ (forall k, k ∉ ["a"] ->
                    props_get k props'
                    = props_get k [("a", Num 1); ("z", Str "s")])
      /\ (forall i, i ∈ ["a"] -> props_has i props' = true))
  /\ exists props',
      [CObject [("z", Str "s")]] !! 0 = Some (CObject props')
      /\ forall k, k ∉ ["a"] -> props_get k props' = props_get k [("z", Str "s")].
Proof.
  assert (looks : Forall (fun f : PropertyKey * Schema =>
                            forall v, keeps 0 (validate v f.2))
                         [("a", SFun number)]).
  { repeat constructor. intros v. apply keeps_number. }
  assert (named : Forall (fun f : PropertyKey * Schema => inherited f.1 = false)
                         [("a", SFun number)]).
  { repeat constructor. }
  split.
  - exact (proj2 (object_schema_declared_keys 0 [("a", Num 1); ("z", Str "s")]
                    [("a", SFun number)]
                    [CObject [("a", Num 1); ("z", Str "s")]] eq_refl named
                    looks)).
  - exact (object_schema_declared_keys 0 [("z", Str "s")]
             [("a", SFun number)] [CObject [("z", Str "s")]] eq_refl named
             looks).
Defined.

(** [maybe(number(), 0)] on [1], and [{a: maybe(number(), 0)}] on [{}]. *)
Lemma maybe_absent_witness :
  maybe (SFun number) (Some (Num 0)) (Num 1) []
  = validate (Num 1) (SFun number) []
  /\ validate (Ref 0) (SObj [("a", SFun (maybe (SFun number) (Some (Num 0))))])
              [CObject []]
     = Return (Ref 0) [CObject [("a", Num 0)]].
Proof.
  destruct (maybe_absent (SFun number) (Some (Num 0))) as (_ & present & fills).
  split.
  - apply present. discriminate.
  - apply (fills 0 [] "a" (Num 0) [CObject []]); reflexivity.
Defined.

(** [filter(string(), x => x.length > 4 && x.length < 8)] on ["hello"]
    and on ["hi"]. *)
Lemma filter_outcomes_witness :
  filter (SFun (string None)) medium_length None (Str "hello") []
  = Return (Str "hello") []
  /\ filter (SFun (string None)) medium_length None (Str "hi") []
     = Throw (ValidationError (mkInfo (Custom "filter failed") [])) [].
Proof.
  split.
  - apply (proj1 (proj2 (filter_outcomes (SFun (string None)) medium_length None
                           (Str "hello") [])) (Str "hello") [] []);
      reflexivity.
  - apply (proj1 (proj2 (proj2 (filter_outcomes (SFun (string None))
                           medium_length None (Str "hi") []))) (Str "hi") [] []);
      reflexivity.
Defined.

(** [map(number(), x => 2 * x)] on ["x"]: the function is not run. *)
Lemma map_laws_witness :
  map (SFun number) double (Str "x") []
  = Throw (ValidationError (mkInfo (Expected (Some "finite number")) [])) [].
Proof.
  apply (proj2 (proj2 (proj2 map_laws))). reflexivity.
Defined.

(** [anyOf(anyOf("a"), anyOf(number()))] on [1]. *)
Lemma anyOf_nesting_witness :
  anyOf [SFun (anyOf [SLit (PString "a")]); SFun (anyOf [SFun number])]
        (Num 1) []
  = Return (Num 1) [].
Proof.
  apply (proj2 (proj2 anyOf_nesting) [SLit (PString "a")] [SFun number]).
  reflexivity.
Defined.

(** A [TypeError] thrown for the field [a] of [{a: 1}], and for the first
    element of [[1]]. *)
Lemma foreign_exception_through_frames_witness :
  validate (Ref 0) (SObj [("a", SFun (crash "TypeError"))])
           [CObject [("a", Num 1)]]
  = Throw (OtherError "TypeError") [CObject [("a", Num 1)]]
  /\ array_loop 1 (SFun (crash "TypeError")) (Ref 0) 0 [CArray [Some (Num 1)]]
     = Throw (OtherError "TypeError") [CArray [Some (Num 1)]].
Proof.
  destruct (foreign_exception_through_frames "TypeError")
    as (field & element & _).
  split.
  - apply (field (Ref 0) [] "a" (SFun (crash "TypeError")) []
                 [CObject [("a", Num 1)]] [CObject [("a", Num 1)]]);
      reflexivity.
  - apply element; [vm_compute; lia | reflexivity].
Defined.

(** [array(number())] on ["s"], on [[1, 2]] and on [[1, "x", <hole>]]. *)
Lemma array_of_looking_schema_witness :
  let h := [CArray [Some (Num 1); Some (Num 2)];
            CArray [Some (Num 1); Some (Str "x"); None]] in
  array 4 (SFun number) (Str "s") h
  = Throw (ValidationError (mkInfo (Expected (Some "array")) [])) h
  /\ array 4 (SFun number) (Ref 0) h = Return (Ref 0) h
  /\ array 4 (SFun number) (Ref 1) h
     = Throw (ValidationError
                (mkInfo (Expected (Some "finite number")) [KNum 1])) h.
Proof.
  intros h.
  destruct (array_of_looking_schema (SFun number) Number_isFinite
              (fun _ => mkInfo (Expected (Some "finite number")) []) 4 h
              decides_number) as (guard & accepted & rejected).
  split; [| split].
  - apply guard. reflexivity.
  - apply (accepted 0 [Some (Num 1); Some (Num 2)]).
    + reflexivity.
    + cbn. lia.
    + repeat constructor.
  - apply (rejected 1 [Some (Num 1)] (Some (Str "x")) [None]).
    + reflexivity.
    + cbn. lia.
    + repeat constructor.
    + reflexivity.
Defined.


(** [integer()] and [number()] on [3]. *)
Lemma integer_is_number_witness :
  number (Num 3) [] = Return (Num 3) []
  /\ exists n, Num 3 = Num n /\ is_finite n = true /\ Num 3 = Num 3
               /\ @nil cell = [].
Proof.
  destruct (integer_is_number (Num 3) []) as (accepted & finite & _).
  split.
  - apply accepted. reflexivity.
  - apply finite. reflexivity.
Defined.

(** The literal ["a"] accepts ["a"] itself; the literal [NaN] rejects
    [NaN]; the literal [1n] throws a [TypeError] on [1]. *)
Lemma literal_schema_witness :
  Str "a" = Prim (PString "a")
  /\ validate (Num nan) (SLit (PNumber nan)) []
     = Throw (ValidationError (mkInfo (Expected (Some "null")) [])) []
  /\ validate (Num 1) (SLit (PBigInt 1)) [] = Throw (OtherError "TypeError") [].
Proof.
  split; [| split].
  - apply (proj1 (proj2 (literal_schema (PString "a")))).
    + reflexivity.
    + discriminate.
  - apply (proj1 (proj2 (proj2 (proj2 (literal_schema (PNumber nan))))) nan);
      reflexivity.
  - apply (proj1 (proj2 (proj2 (proj2 (proj2 (literal_schema (PBigInt 1))))))
             1%Z);
      [reflexivity | discriminate].
Defined.

(** [{a: maybe(number()), b: string()}] on [{b: 1}]: the missing [a] is
    written as [undefined] before [b] fails. *)
Lemma plain_failure_leaves_input_witness :
  let h := [CObject [("b", Num 1)]] in
  let h' := [CObject [("b", Num 1); ("a", undefined)]] in
  (exists info,
      ValidationError (mkInfo (Expected (Some "string")) [KStr "b"])
      = ValidationError info)
  /\ alike h h'
  /\ (forall x k, get h' x k = get h x k)
  /\ (forall x, array_length h' x = array_length h x).
Proof.
  intros h h'.
  destruct (plain_failure_leaves_input
              (SObj [("a", SFun (maybe (SFun number) None));
                     ("b", SFun (string None))]) (Ref 0) h
              (ValidationError (mkInfo (Expected (Some "string")) [KStr "b"])) h')
    as (only & rest).
  - repeat constructor.
  - reflexivity.
  - split; [| exact rest]. apply only. repeat constructor.
Defined.

(** [{a: maybe(number())}] on [{}] and on [{a: undefined}]. *)
Lemma plain_validate_reads_only_witness :
  result_of (validate (Ref 0) (SObj [("a", SFun (maybe (SFun number) None))])
                      [CObject []])
  = result_of (validate (Ref 0) (SObj [("a", SFun (maybe (SFun number) None))])
                        [CObject [("a", undefined)]]).
Proof.
  apply plain_validate_reads_only.
  - repeat constructor.
  - constructor; [| constructor]. intros k. cbn [props_get].
    destruct (String.eqb_spec "a" k) as [<- | N].
    + reflexivity.
    + now destruct (inherited k).
Defined.

(** [anyOf("a", never(), number())] on [1]. *)
Lemma any_never_units_witness :
  anyOf [SLit (PString "a"); SFun never; SFun number] (Num 1) []
  = Return (Num 1) [].
Proof.
  destruct (any_never_units (Num 1) []) as (_ & _ & _ & dropped & _).
  apply (dropped [SLit (PString "a")] [SFun number]). reflexivity.
Defined.

(** [number()] returns on [1], which is then a finite number; [string()]
    returns on ["a"]. *)
Lemma scalars_sort_by_type_witness :
  (exists n, Num 1 = Num n /\ is_finite n = true /\ Num 1 = Num 1
             /\ @nil cell = [])
  /\ string None (Str "a") [] = Return (Str "a") [].
Proof.
  split.
  - apply (proj1 (proj2 (proj2 (scalars_sort_by_type (Num 1) [])))).
    reflexivity.
  - apply (proj1 (scalars_sort_by_type (Str "a") [])).
    now exists "a".
Defined.
